(** * Calibration measures of probnum-evaluation

    A shallow embedding of
    [src/probnumeval/multivariate/_calibration_measures.py]
    ([anees], [nci], [_compute_normalized_discrepancies],
    [_compute_normalized_discrepancy]) and the properties its
    specification states about it.

    Conventions of the embedding.

    - Numbers.  A Python float that holds a number is an element of an
      ordered field [F] (exact arithmetic: rounding is not modelled).  The
      IEEE special values that [np.mean] and [np.log10] produce are kept:
      a scalar result is an [npfloat], a number, an infinity or NaN.
    - Arrays.  A 1-D array of length [d] is a row vector ['rV[F]_d], a 2-D
      array of shape (d, d) a matrix ['M[F]_d], the batched arrays of shape
      (N, d) and (N, d, d) are [N]-tuples of those.
    - Exceptions.  A call returns an [outcome]: [Return v] or [Raise e].
    - Mutation.  [cov += ...] writes into the array the name [cov] is bound
      to; the embedding keeps the caller's array and the array allocated by
      the call apart ([cell], [heap]) and returns the caller's array next to
      the result.
    - numpy and scipy are not part of the repository: their routines are the
      fields of the record [numpy], with the laws their documentation
      gives in exact arithmetic; [reference_numpy] is an implementation. *)

From HB Require Import structures.
From Stdlib Require Import String.
From mathcomp Require Import boot order algebra.
From mathcomp Require Import ring_tactic field_tactic.

Set Implicit Arguments.
Unset Strict Implicit.
Unset Printing Implicit Defensive.

Import GRing.Theory Num.Theory Order.Theory.
Local Open Scope ring_scope.

(** ** Exceptions *)

(** [ValueError_not_known] is
    [ValueError("Covariance inversion parameters are not known.")], the
    only exception the module raises itself; [LinAlgError] stands for an
    exception raised inside a numpy.linalg or scipy.linalg routine. *)
Inductive exn : Type :=
  | ValueError_not_known
  | LinAlgError.

Inductive outcome (T : Type) : Type :=
  | Return of T
  | Raise of exn.

Arguments Raise {T} e.

Definition bind (T U : Type) (x : outcome T) (k : T -> outcome U) : outcome U :=
  match x with
  | Return v => k v
  | Raise e => Raise e
  end.

Notation "x <- c ;; k" := (bind c (fun x => k))
  (at level 61, c at next level, right associativity).

Definition of_library (T : Type) (x : option T) : outcome T :=
  match x with
  | Some v => Return v
  | None => Raise LinAlgError
  end.

(** The results of a list of independent calls, as a list comprehension
    collects them: in order, up to the first exception. *)
Fixpoint collect (T : Type) (xs : seq (outcome T)) : outcome (seq T) :=
  match xs with
  | [::] => Return [::]
  | x :: xs' => v <- x ;; vs <- collect xs' ;; Return (v :: vs)
  end.

(** ** Scalars with the IEEE special values *)

Section NpFloat.

Variable F : realFieldType.

Inductive npfloat : Type :=
  | Fin of F
  | PInf
  | NInf
  | NaN.

Definition is_finite (x : npfloat) : bool :=
  if x is Fin _ then true else false.

Definition np_add (x y : npfloat) : npfloat :=
  match x, y with
  | NaN, _ | _, NaN => NaN
  | Fin a, Fin b => Fin (a + b)
  | PInf, NInf | NInf, PInf => NaN
  | PInf, _ | _, PInf => PInf
  | NInf, _ | _, NInf => NInf
  end.

Definition np_neg (x : npfloat) : npfloat :=
  match x with
  | Fin a => Fin (- a)
  | PInf => NInf
  | NInf => PInf
  | NaN => NaN
  end.

Definition np_sub (x y : npfloat) : npfloat := np_add x (np_neg y).

(** The product of an infinity with a number [a]: it takes the sign of
    [a], and is NaN at 0. *)
Definition inf_times (positive : bool) (a : F) : npfloat :=
  if 0 < a then (if positive then PInf else NInf)
  else if a < 0 then (if positive then NInf else PInf)
  else NaN.

Definition np_mul (x y : npfloat) : npfloat :=
  match x, y with
  | NaN, _ | _, NaN => NaN
  | Fin a, Fin b => Fin (a * b)
  | Fin a, PInf | PInf, Fin a => inf_times true a
  | Fin a, NInf | NInf, Fin a => inf_times false a
  | PInf, PInf | NInf, NInf => PInf
  | PInf, NInf | NInf, PInf => NaN
  end.

(** [np.sum]: the order of the additions does not matter in exact
    arithmetic, nor for the special values. *)
Definition np_sum (a : seq npfloat) : npfloat := foldr np_add (Fin 0) a.

(** [np.mean(a)]: the sum divided by the number of entries; 0/0, the mean of
    an empty array, is NaN. *)
Definition np_mean (a : seq npfloat) : npfloat :=
  if size a is 0%N then NaN
  else match np_sum a with
       | Fin s => Fin (s / (size a)%:R)
       | special => special
       end.

(** [np.log10] at an [npfloat], given the logarithm [lg] of a positive
    number: log10(0) is -inf, the logarithm of a negative number is NaN. *)
Definition np_log10_with (lg : F -> F) (x : npfloat) : npfloat :=
  match x with
  | Fin a => if 0 < a then Fin (lg a) else if a == 0 then NInf else NaN
  | PInf => PInf
  | NInf => NaN
  | NaN => NaN
  end.

End NpFloat.

Arguments PInf {F}.
Arguments NInf {F}.
Arguments NaN {F}.

(** ** 1-D and 2-D arrays *)

Section Arrays.

Variable F : realFieldType.

(** [u @ v] for two 1-D arrays. *)
Definition dot (d : nat) (u v : 'rV[F]_d) : F := (u *m v^T) 0 0.

(** The matrix that a routine reading only the lower triangle of [C]
    works on: [C] below and on the diagonal, its mirror image above. *)
Definition lower_sym (d : nat) (C : 'M[F]_d) : 'M[F]_d :=
  \matrix_(i, j) (if (j <= i)%N then C i j else C j i).

Definition posdef (d : nat) (C : 'M[F]_d) : Prop :=
  forall x : 'rV[F]_d, x != 0 -> 0 < dot (x *m C) x.

End Arrays.

(** ** The numpy and scipy routines the module calls

    In exact arithmetic:
    - [np.linalg.inv(C)] returns the inverse of [C] and raises on a singular
      matrix;
    - [np.linalg.pinv(C)] returns the Moore-Penrose pseudo-inverse;
    - [np.linalg.solve(C, b)] returns the solution of [C x = b] and raises
      on a singular matrix;
    - [scipy.linalg.cho_factor(C, lower=True)] reads the lower triangle of
      [C] and returns a factorization of [lower_sym C] when that matrix is
      positive definite, and raises when it is not; [cho_solve] solves
      with the factorization;
    - [np.log10] of a positive number is a number (no law is needed);
    - [nan_form s r] is what the routine of strategy [s] gives for
      [r @ inverse @ r] on a covariance filled with NaN ([None]: the
      routine raises). *)
Record numpy (F : realFieldType) : Type := Numpy {
  log10 : F -> F;
  linalg_inv : forall d : nat, 'M[F]_d -> option 'M[F]_d;
  linalg_pinv : forall d : nat, 'M[F]_d -> 'M[F]_d;
  linalg_solve : forall d : nat, 'M[F]_d -> 'rV[F]_d -> option 'rV[F]_d;
  factorization : nat -> Type;
  cho_factor : forall d : nat, 'M[F]_d -> option (factorization d);
  cho_solve : forall d : nat, factorization d -> 'rV[F]_d -> 'rV[F]_d;
  nan_form : string -> forall d : nat, 'rV[F]_d -> option (npfloat F);
  inv_correct : forall (d : nat) (C D : 'M[F]_d),
    linalg_inv C = Some D -> C *m D = 1%:M;
  inv_defined : forall (d : nat) (C : 'M[F]_d),
    C \in unitmx -> linalg_inv C;
  pinv_penrose : forall (d : nat) (C : 'M[F]_d),
    [/\ C *m linalg_pinv C *m C = C,
        linalg_pinv C *m C *m linalg_pinv C = linalg_pinv C,
        (C *m linalg_pinv C)^T = C *m linalg_pinv C
      & (linalg_pinv C *m C)^T = linalg_pinv C *m C];
  solve_correct : forall (d : nat) (C : 'M[F]_d) (b x : 'rV[F]_d),
    linalg_solve C b = Some x -> C *m x^T = b^T;
  solve_singular : forall (d : nat) (C : 'M[F]_d) (b : 'rV[F]_d),
    C \notin unitmx -> linalg_solve C b = None;
  solve_defined : forall (d : nat) (C : 'M[F]_d) (b : 'rV[F]_d),
    C \in unitmx -> linalg_solve C b;
  cho_correct : forall (d : nat) (C : 'M[F]_d) (c : factorization d)
      (b : 'rV[F]_d),
    cho_factor C = Some c -> lower_sym C *m (cho_solve c b)^T = b^T;
  cho_defined : forall (d : nat) (C : 'M[F]_d),
    posdef (lower_sym C) -> cho_factor C;
  cho_positive : forall (d : nat) (C : 'M[F]_d),
    cho_factor C -> posdef (lower_sym C)
}.

(** ** The module *)

Section CalibrationMeasures.

Variable F : realFieldType.
Variable np : numpy F.

(** [config.COVARIANCE_INVERSION]. *)
Record config : Type := Config {
  symmetrize : bool;
  damping : F;
  strategy : string
}.

Variable COVARIANCE_INVERSION : config.

(** The arrays the name [cov] of [_compute_normalized_discrepancy] can be
    bound to: the argument the caller passed, a view of a row of its batch,
    and the array that [0.5 * (cov + cov.T)] allocates. *)
Inductive cell : Type :=
  | CallerArray
  | FreshArray.

Record heap (d : nat) : Type := Heap {
  caller_array : 'M[F]_d;
  fresh_array : 'M[F]_d
}.

Definition load (d : nat) (h : heap d) (c : cell) : 'M[F]_d :=
  match c with
  | CallerArray => caller_array h
  | FreshArray => fresh_array h
  end.

Definition store (d : nat) (h : heap d) (c : cell) (M : 'M[F]_d) : heap d :=
  match c with
  | CallerArray => Heap M (fresh_array h)
  | FreshArray => Heap (caller_array h) M
  end.

(** [_compute_normalized_discrepancy(mean, cov)]: the result, and the
    caller's array after the call. *)
Definition _compute_normalized_discrepancy (d : nat)
    (mean : 'rV[F]_d) (cov_arg : 'M[F]_d) : outcome F * 'M[F]_d :=
  let h := Heap cov_arg 0 in
  let cov := CallerArray in
  let: (cov, h) :=
    if symmetrize COVARIANCE_INVERSION
    then (FreshArray,
          store h FreshArray (2%:R^-1 *: (load h cov + (load h cov)^T)))
    else (cov, h) in
  let h :=
    if 0 < damping COVARIANCE_INVERSION
    then store h cov (load h cov + damping COVARIANCE_INVERSION *: 1%:M)
    else h in
  let result :=
    if String.eqb (strategy COVARIANCE_INVERSION) "inv" then
      inv_cov <- of_library (linalg_inv np (load h cov)) ;;
      Return (dot (mean *m inv_cov) mean)
    else if String.eqb (strategy COVARIANCE_INVERSION) "pinv" then
      Return (dot (mean *m linalg_pinv np (load h cov)) mean)
    else if String.eqb (strategy COVARIANCE_INVERSION) "solve" then
      x <- of_library (linalg_solve np (load h cov) mean) ;;
      Return (dot mean x)
    else if String.eqb (strategy COVARIANCE_INVERSION) "cholesky" then
      c <- of_library (cho_factor np (load h cov)) ;;
      Return (dot mean (cho_solve c mean))
    else Raise ValueError_not_known in
  (result, caller_array h).

(** [_compute_normalized_discrepancies(centered_mean, cov_matrices)]: the
    list comprehension over [zip(centered_mean, cov_matrices)], each [C] a
    view of a row of [cov_matrices].  The result, and [cov_matrices] after
    the call. *)
Fixpoint _compute_normalized_discrepancies (d : nat)
    (centered_mean : seq 'rV[F]_d) (cov_matrices : seq 'M[F]_d)
    : outcome (seq F) * seq 'M[F]_d :=
  match centered_mean, cov_matrices with
  | m :: ms, C :: Cs =>
      let: (r, C') := _compute_normalized_discrepancy m C in
      match r with
      | Raise e => (Raise e, C' :: Cs)
      | Return x =>
          let: (rs, Cs') := _compute_normalized_discrepancies ms Cs in
          (xs <- rs ;; Return (x :: xs), C' :: Cs')
      end
  | _, _ => (Return [::], cov_matrices)
  end.

(** A batched Gaussian: [mean] of shape (N, d), [cov] of shape (N, d, d). *)
Record Normal (N d : nat) : Type := MkNormal {
  mean : N.-tuple 'rV[F]_d;
  cov : N.-tuple 'M[F]_d
}.

(** [approximate_solution.mean - reference_solution]. *)
Definition centered (N d : nat) (approximate_solution : Normal N d)
    (reference_solution : N.-tuple 'rV[F]_d) : seq 'rV[F]_d :=
  [seq p.1 - p.2 | p <- zip (mean approximate_solution) reference_solution].

(** [anees(approximate_solution, reference_solution)]: the result, and the
    array [approximate_solution.cov] after the call. *)
Definition anees (N d : nat) (approximate_solution : Normal N d)
    (reference_solution : N.-tuple 'rV[F]_d)
    : outcome (npfloat F) * seq 'M[F]_d :=
  let cov_matrices := tval (cov approximate_solution) in
  let centered_mean := centered approximate_solution reference_solution in
  let: (normalized_discrepancies, cov_matrices) :=
    _compute_normalized_discrepancies centered_mean cov_matrices in
  (ds <- normalized_discrepancies ;; Return (np_mean (map (@Fin F) ds)),
   cov_matrices).

(** [np.cov(centered_mean.T)] as numpy computes it: [X] is the transposed
    array, one row per variable and one column per observation; [avg] the
    mean of each row; [fact] the number of observations less one.  With
    fewer than two observations numpy warns, sets [fact] to 0.0 and
    multiplies by 1 / 0.0: every entry is NaN ([None]). *)
Definition np_cov (d : nat) (centered_mean : seq 'rV[F]_d) : option 'M[F]_d :=
  let N := size centered_mean in
  let X : 'M[F]_(d, N) := \matrix_(i, j) (nth 0 centered_mean j) 0 i in
  let avg : 'cV[F]_d := \col_i ((\sum_j X i j) / N%:R) in
  let fact := (N - 1)%N in
  if (fact <= 0)%N then None
  else
    let X : 'M[F]_(d, N) := \matrix_(i, j) (X i j - avg i 0) in
    let c := X *m X^T in
    Some (fact%:R^-1 *: c).

(** [_compute_normalized_discrepancy(mean, cov)] for a [cov] filled with
    NaN: it stays so through both regularization steps, and the routine of
    the strategy decides. *)
Definition _compute_normalized_discrepancy_nan (d : nat) (mean : 'rV[F]_d)
    : outcome (npfloat F) :=
  let s := strategy COVARIANCE_INVERSION in
  if [|| String.eqb s "inv", String.eqb s "pinv", String.eqb s "solve"
       | String.eqb s "cholesky"]
  then of_library (nan_form np s mean)
  else Raise ValueError_not_known.

(** [nci(approximate_solution, reference_solution)]: the result, and the
    array [approximate_solution.cov] after the call.  [np.tile] copies the
    sample covariance [len(centered_mean)] times into a new array. *)
Definition nci (N d : nat) (approximate_solution : Normal N d)
    (reference_solution : N.-tuple 'rV[F]_d)
    : outcome (npfloat F) * seq 'M[F]_d :=
  let cov_matrices := tval (cov approximate_solution) in
  let centered_mean := centered approximate_solution reference_solution in
  let: (normalized_discrepancies, cov_matrices) :=
    _compute_normalized_discrepancies centered_mean cov_matrices in
  let reference_discrepancies :=
    match np_cov centered_mean with
    | Some c =>
        let sample_covariance_matrix := nseq (size centered_mean) c in
        ds <- (_compute_normalized_discrepancies
                 centered_mean sample_covariance_matrix).1 ;;
        Return (map (@Fin F) ds)
    | None =>
        collect (map (@_compute_normalized_discrepancy_nan d) centered_mean)
    end in
  (A <- normalized_discrepancies ;;
   B <- reference_discrepancies ;;
   Return (np_mul (Fin 10%:R)
             (np_sub (np_mean (map (np_log10_with (log10 np))
                                   (map (@Fin F) A)))
                     (np_mean (map (np_log10_with (log10 np)) B)))),
   cov_matrices).


(** ** The specification's reading of the same computations *)

(** The inversion strategy as a closed enumeration (section 9). *)
Inductive inversion : Type :=
  | Inv
  | Pinv
  | Solve
  | Cholesky.

Definition inversion_of (s : string) : option inversion :=
  if String.eqb s "inv" then Some Inv
  else if String.eqb s "pinv" then Some Pinv
  else if String.eqb s "solve" then Some Solve
  else if String.eqb s "cholesky" then Some Cholesky
  else None.

(** Step 1 of section 4.1: the symmetric part, when enabled. *)
Definition symmetrize_step (d : nat) (C : 'M[F]_d) : 'M[F]_d :=
  if symmetrize COVARIANCE_INVERSION then 2%:R^-1 *: (C + C^T) else C.

(** Step 2: [damping * I_d] is added when damping is strictly positive. *)
Definition damping_step (d : nat) (C : 'M[F]_d) : 'M[F]_d :=
  if 0 < damping COVARIANCE_INVERSION
  then C + damping COVARIANCE_INVERSION *: 1%:M
  else C.

Definition regularized (d : nat) (C : 'M[F]_d) : 'M[F]_d :=
  damping_step (symmetrize_step C).

(** Step 3: [residual^T C^-1 residual] by one of the four strategies. *)
Definition inversion_step (s : inversion) (d : nat) (r : 'rV[F]_d)
    (C : 'M[F]_d) : outcome F :=
  match s with
  | Inv => D <- of_library (linalg_inv np C) ;; Return (dot (r *m D) r)
  | Pinv => Return (dot (r *m linalg_pinv np C) r)
  | Solve => x <- of_library (linalg_solve np C r) ;; Return (dot r x)
  | Cholesky =>
      c <- of_library (cho_factor np C) ;; Return (dot r (cho_solve c r))
  end.

Definition normalized_discrepancy (d : nat) (r : 'rV[F]_d) (C : 'M[F]_d)
    : outcome F :=
  match inversion_of (strategy COVARIANCE_INVERSION) with
  | Some s => inversion_step s r (regularized C)
  | None => Raise ValueError_not_known
  end.

(** Section 4.2: 4.1 applied independently, in input order, to each pair
    of two aligned sequences. *)
Definition discrepancy_vector (d : nat) (rs : seq 'rV[F]_d)
    (Cs : seq 'M[F]_d) : outcome (seq F) :=
  collect [seq normalized_discrepancy p.1 p.2 | p <- zip rs Cs].

(** The sample covariance matrix of a batch of residuals. *)
Definition sample_mean (d : nat) (rs : seq 'rV[F]_d) : 'rV[F]_d :=
  (size rs)%:R^-1 *: \sum_(r <- rs) r.

Definition sample_covariance (d : nat) (rs : seq 'rV[F]_d) : 'M[F]_d :=
  (size rs - 1)%:R^-1 *:
    \sum_(r <- rs) (r - sample_mean rs)^T *m (r - sample_mean rs).

(** Section 4.4, steps 1 to 5.  The sample covariance of fewer than two
    residuals is 0/0: the baseline discrepancies are then those of a
    covariance filled with NaN. *)
Definition residuals (N d : nat) (approximate_solution : Normal N d)
    (reference_solution : N.-tuple 'rV[F]_d) : seq 'rV[F]_d :=
  [seq p.1 - p.2 | p <- zip (mean approximate_solution) reference_solution].

Definition true_discrepancies (N d : nat) (approximate_solution : Normal N d)
    (reference_solution : N.-tuple 'rV[F]_d) : outcome (seq (npfloat F)) :=
  ds <- discrepancy_vector
          (residuals approximate_solution reference_solution)
          (cov approximate_solution) ;;
  Return (map (@Fin F) ds).

Definition baseline_discrepancies (N d : nat)
    (approximate_solution : Normal N d)
    (reference_solution : N.-tuple 'rV[F]_d) : outcome (seq (npfloat F)) :=
  let rs := residuals approximate_solution reference_solution in
  if (1 < N)%N
  then ds <- discrepancy_vector rs (nseq N (sample_covariance rs)) ;;
       Return (map (@Fin F) ds)
  else collect (map (@_compute_normalized_discrepancy_nan d) rs).

Definition nci_spec (N d : nat) (approximate_solution : Normal N d)
    (reference_solution : N.-tuple 'rV[F]_d) : outcome (npfloat F) :=
  A <- true_discrepancies approximate_solution reference_solution ;;
  B <- baseline_discrepancies approximate_solution reference_solution ;;
  Return (np_mul (Fin 10%:R)
            (np_sub (np_mean (map (np_log10_with (log10 np)) A))
                    (np_mean (map (np_log10_with (log10 np)) B)))).

(** Section 4.3: the arithmetic mean of the discrepancy vector of
    (mean - reference, covariance), each entry computed by the module's
    [_compute_normalized_discrepancy] on the original arrays. *)
Definition anees_spec (N d : nat) (approximate_solution : Normal N d)
    (reference_solution : N.-tuple 'rV[F]_d) : outcome (npfloat F) :=
  ds <- collect
          [seq (_compute_normalized_discrepancy (p.1.1 - p.1.2) p.2).1
          | p <- zip (zip (mean approximate_solution) reference_solution)
                     (cov approximate_solution)] ;;
  Return (Fin ((\sum_(x <- ds) x) / N%:R)).

End CalibrationMeasures.

Arguments _compute_normalized_discrepancy : simpl never.

(** ** Further definitions used in the statements *)

(** The four recognized strategy names. *)
Definition recognized (s : string) : Prop :=
  [\/ s = "inv"%string, s = "pinv"%string, s = "solve"%string
    | s = "cholesky"%string].

Definition config_error (T : Type) (x : outcome T) : bool :=
  if x is Raise ValueError_not_known then true else false.

(** A discrepancy that is a number <= 0. *)
Definition np_nonpositive (F : realFieldType) (x : npfloat F) : bool :=
  if x is Fin a then a <= 0 else false.

Section Auxiliary.

Variable F : realFieldType.

(** Every covariance of the batch multiplied by [k]. *)
Definition inflate (k : F) (N d : nat) (sol : Normal F N d) : Normal F N d :=
  MkNormal (mean sol) [tuple of [seq k *: C | C <- cov sol]].

(** The forms [r C^-1 r] of the points of a batch. *)
Definition forms (d : nat) (rs : seq 'rV[F]_d) (Cs : seq 'M[F]_d) : seq F :=
  [seq dot (p.1 *m invmx p.2) p.1 | p <- zip rs Cs].

(** The sample covariance of scalars is their sample variance. *)
Definition variance (xs : seq F) : F :=
  (size xs - 1)%:R^-1
  * \sum_(x <- xs) (x - (size xs)%:R^-1 * \sum_(y <- xs) y) ^+ 2.

(** The Moore-Penrose pseudo-inverse, from a full-rank factorization
    [C = B *m R]: [R^T (R R^T)^-1 (B^T B)^-1 B^T]. *)
Definition moore_penrose (d : nat) (C : 'M[F]_d) : 'M[F]_d :=
  let B := col_base C in
  let R := row_base C in
  R^T *m invmx (R *m R^T) *m invmx (B^T *m B) *m B^T.

(** The Schur complement of the first entry of a matrix, and the test
    that every pivot of a Cholesky factorization is positive: the first
    entry is, and so are the pivots of its Schur complement. *)
Definition schur (n : nat) (A : 'M[F]_(1 + n)) : 'M[F]_n :=
  drsubmx A - (A 0 0)^-1 *: (dlsubmx A *m ursubmx A).

Fixpoint cholesky_pivots (d : nat) : 'M[F]_d -> bool :=
  match d with
  | 0 => fun _ => true
  | d'.+1 => fun A : 'M[F]_(1 + d') =>
      (0 < A 0 0) && cholesky_pivots (schur A)
  end.

(** What the routines compute in exact arithmetic, from MathComp's
    inverse.  [ref_cho_factor] succeeds when the pivots are positive, as
    the factorization does; it keeps the matrix to solve with in place of
    its factor, since a field need not have square roots. *)
Definition ref_inv (d : nat) (C : 'M[F]_d) : option 'M[F]_d :=
  if C \in unitmx then Some (invmx C) else None.

Definition ref_solve (d : nat) (C : 'M[F]_d) (b : 'rV[F]_d)
    : option 'rV[F]_d :=
  if C \in unitmx then Some (b *m (invmx C)^T) else None.

Definition ref_cho_factor (d : nat) (C : 'M[F]_d) : option 'M[F]_d :=
  if cholesky_pivots (lower_sym C) then Some (lower_sym C) else None.

Definition ref_cho_solve (d : nat) (c : 'M[F]_d) (b : 'rV[F]_d) : 'rV[F]_d :=
  b *m (invmx c)^T.

Definition ref_nan_form (s : string) (d : nat) (r : 'rV[F]_d)
    : option (npfloat F) :=
  if String.eqb s "inv" || String.eqb s "solve" then Some NaN else None.

End Auxiliary.

Section MoreDefinitions.

Variable F : realFieldType.

(** Positive semidefinite: what a covariance matrix is in principle. *)
Definition psd (d : nat) (C : 'M[F]_d) : Prop :=
  forall x : 'rV[F]_d, 0 <= dot (x *m C) x.

(** What a call of [_compute_normalized_discrepancy] leaves in the array
    the caller passed. *)
Definition after_call (cfg : config F) (d : nat) (C : 'M[F]_d) : 'M[F]_d :=
  if ~~ symmetrize cfg && (0 < damping cfg)
  then C + damping cfg *: 1%:M else C.

(** A batch with the same means and other covariances. *)
Definition with_cov (N d : nat) (sol : Normal F N d)
    (covs : N.-tuple 'M[F]_d) : Normal F N d :=
  MkNormal (mean sol) covs.

(** Means and covariances in other units: means times [c], covariances
    times [c ^+ 2]. *)
Definition rescale (c : F) (N d : nat) (sol : Normal F N d) : Normal F N d :=
  MkNormal [tuple of [seq c *: m | m <- mean sol]]
           [tuple of [seq c ^+ 2 *: C | C <- cov sol]].

End MoreDefinitions.

(** ** Concrete inputs, over the rationals *)

(** The scenario of section 8 of the specification: d = 1, N = 3. *)
Definition scenario_config : config rat := Config false 0 "solve".

Definition scenario_solution : Normal rat 3 1 :=
  MkNormal [tuple 1%:M; 2%:M; 3%:M] [tuple 1%:M; 1%:M; 4%:M].

Definition scenario_reference : 3.-tuple 'rV[rat]_1 :=
  [tuple 0%:M; 2%:M; 5%:M].

(** A batch of one point with residual 1 and covariance 0. *)
Definition singular_solution : Normal rat 1 1 :=
  MkNormal [tuple 1%:M] [tuple 0%:M].

Definition singular_reference : 1.-tuple 'rV[rat]_1 := [tuple 0%:M].

(** A batch of one point with residual 1 and the matrix -1 for a
    covariance: invertible, not positive definite. *)
Definition indefinite_solution : Normal rat 1 1 :=
  MkNormal [tuple 1%:M] [tuple (- 1)%:M].

(** The scenario with every mean and reference moved by 1. *)
Definition shifted_solution : Normal rat 3 1 :=
  MkNormal [tuple 2%:M; 3%:M; 4%:M] [tuple 1%:M; 1%:M; 4%:M].

Definition shifted_reference : 3.-tuple 'rV[rat]_1 :=
  [tuple 1%:M; 3%:M; 6%:M].

(** Two points with residuals 1 and -1, whose sample variance is 2, and
    2 for both reported covariances. *)
Definition calibrated_solution : Normal rat 2 1 :=
  MkNormal [tuple 1%:M; (- 1)%:M] [tuple 2%:M; 2%:M].

Definition calibrated_reference : 2.-tuple 'rV[rat]_1 :=
  [tuple 0%:M; 0%:M].

(** The rationals have no logarithm; no statement below depends on the
    values of the one handed to [reference_numpy]. *)
Definition lg_rat (x : rat) : rat := 0.

(** ** An implementation of the numpy routines *)

Section LinearAlgebra.

Variable F : realFieldType.

Lemma dotE (d : nat) (u v : 'rV[F]_d) : dot u v = \sum_j u 0 j * v 0 j.
Proof. by rewrite /dot mxE; apply: eq_bigr => j _; rewrite mxE. Qed.

Lemma dot_self_eq0 (d : nat) (u : 'rV[F]_d) : dot u u = 0 -> u = 0.
Proof.
move=> /eqP; rewrite dotE psumr_eq0; first by move=> j _; rewrite -expr2 sqr_ge0.
move=> /allP h; apply/rowP => j; rewrite mxE.
by have /= := h j (mem_index_enum j); rewrite -expr2 sqrf_eq0 => /eqP.
Qed.

Lemma gram_unit (m n : nat) (R : 'M[F]_(m, n)) :
  row_free R -> R *m R^T \in unitmx.
Proof.
move=> freeR; rewrite -row_free_unit; apply: inj_row_free => x xRR.
apply: (row_free_inj freeR); rewrite mul0mx; apply: dot_self_eq0.
by rewrite /dot trmx_mul mulmxA -(mulmxA x) xRR mul0mx mxE.
Qed.

Lemma full_rank_penrose (m r n : nat) (B : 'M[F]_(m, r)) (R : 'M[F]_(r, n)) :
  B^T *m B \in unitmx -> R *m R^T \in unitmx ->
  let C := B *m R in
  let P := R^T *m invmx (R *m R^T) *m invmx (B^T *m B) *m B^T in
  [/\ C *m P *m C = C, P *m C *m P = P, (C *m P)^T = C *m P
    & (P *m C)^T = P *m C].
Proof.
move=> uB uR C P.
have CP : C *m P = B *m invmx (B^T *m B) *m B^T.
  by rewrite /C /P !mulmxA -(mulmxA B R) mulmxK.
have PC : P *m C = R^T *m invmx (R *m R^T) *m R.
  by rewrite /C /P !mulmxA -(mulmxA _ B^T B) mulmxKV.
split.
- by rewrite CP /C !mulmxA -(mulmxA _ B^T B) mulmxKV.
- by rewrite PC /P !mulmxA -(mulmxA _ R R^T) mulmxK.
- by rewrite CP !trmx_mul trmxK trmx_inv trmx_mul trmxK mulmxA.
- by rewrite PC !trmx_mul trmxK trmx_inv trmx_mul trmxK mulmxA.
Qed.

Lemma moore_penroseP (d : nat) (C : 'M[F]_d) :
  [/\ C *m moore_penrose C *m C = C,
      moore_penrose C *m C *m moore_penrose C = moore_penrose C,
      (C *m moore_penrose C)^T = C *m moore_penrose C
    & (moore_penrose C *m C)^T = moore_penrose C *m C].
Proof.
have uR : row_base C *m (row_base C)^T \in unitmx.
  by apply: gram_unit; apply: row_base_free.
have uB : (col_base C)^T *m col_base C \in unitmx.
  have := @gram_unit _ _ (col_base C)^T; rewrite trmxK; apply.
  by rewrite /row_free mxrank_tr; apply: col_base_full.
by have := full_rank_penrose uB uR; rewrite /= mulmx_base.
Qed.

Lemma posdef_unit (d : nat) (C : 'M[F]_d) : posdef C -> C \in unitmx.
Proof.
move=> pdC; rewrite -row_free_unit; apply: inj_row_free => x xC.
apply/eqP; apply: contraT => /pdC; rewrite xC /dot mul0mx mxE ltxx.
by [].
Qed.

Lemma ulsubmx11 (n : nat) (A : 'M[F]_(1 + n)) : ulsubmx A = (A 0 0)%:M.
Proof.
rewrite [LHS]mx11_scalar !mxE; congr (A _ _)%:M; exact: val_inj.
Qed.

Lemma quad_block_mx (n : nat) (A : 'M[F]_(1 + n)) (u : F) (y : 'rV[F]_n) :
  row_mx u%:M y *m A *m (row_mx u%:M y)^T
  = (A 0 0 * u ^+ 2)%:M
    + u *: (y *m dlsubmx A + ursubmx A *m y^T)
    + y *m drsubmx A *m y^T.
Proof.
rewrite -{1}(submxK A) mul_row_block tr_row_mx mul_row_col ulsubmx11.
rewrite tr_scalar_mx !mulmxDl -!scalar_mxM mul_mx_scalar mul_scalar_mx.
rewrite -scalemxAl scalerDr !addrA; congr (_ + _ + _ + _).
by rewrite expr2 mulrCA mulrA.
Qed.

Lemma quad_block (n : nat) (A : 'M[F]_(1 + n)) (u : F) (y : 'rV[F]_n) :
  let b := (y *m dlsubmx A) 0 0 in
  let c := (ursubmx A *m y^T) 0 0 in
  dot (row_mx u%:M y *m A) (row_mx u%:M y)
  = A 0 0 * u ^+ 2 + u * (b + c) + dot (y *m drsubmx A) y.
Proof. by rewrite /dot quad_block_mx !mxE eqxx mulr1n. Qed.

Lemma quad_schur (n : nat) (A : 'M[F]_(1 + n)) (y : 'rV[F]_n) :
  dot (y *m schur A) y
  = dot (y *m drsubmx A) y
    - (A 0 0)^-1 * ((y *m dlsubmx A) 0 0 * (ursubmx A *m y^T) 0 0).
Proof.
rewrite /dot /schur mulmxBr mulmxBl [LHS]mxE [X in _ + X]mxE; congr (_ - _).
rewrite -scalemxAr -scalemxAl mxE; congr (_ * _).
by rewrite mulmxA -mulmxA mxE big_ord1.
Qed.

Lemma row_mx_split (n : nat) (x : 'rV[F]_(1 + n)) :
  x = row_mx (x 0 0)%:M (rsubmx x).
Proof.
rewrite -[LHS]hsubmxK; congr (row_mx _ _).
by rewrite [LHS]mx11_scalar !mxE; congr (x _ _)%:M; apply: val_inj.
Qed.

Lemma row_mx_eq0 (n : nat) (u : F) (y : 'rV[F]_n) :
  row_mx u%:M y = 0 -> u = 0 /\ y = 0.
Proof.
move=> x0; split.
  have := congr1 (fun M => lsubmx M 0 0) x0.
  by rewrite row_mxKl raddf0 !mxE eqxx mulr1n.
by have := congr1 (@rsubmx _ _ _ _) x0; rewrite row_mxKr raddf0.
Qed.

Lemma posdef_pivots (d : nat) (A : 'M[F]_d) : posdef A -> cholesky_pivots A.
Proof.
elim: d A => [|n IH] //=; rewrite -['M[F]_n.+1]/'M[F]_(1 + n) => A pdA.
have gt0 : 0 < A 0 0.
  have nz : row_mx (1%:M : 'M[F]_1) (0 : 'rV[F]_n) != 0.
    by apply/eqP => /row_mx_eq0[/eqP]; rewrite oner_eq0.
  have := pdA _ nz; rewrite (quad_block A 1 0) /= !mul0mx trmx0 mulmx0 /dot.
  rewrite mul0mx !mxE.
  by have -> : A 0 0 * 1 ^+ 2 + 1 * (0 + 0) + 0 = A 0 0 by ring.
rewrite gt0 /=; apply: IH => y nzy.
have nz : row_mx (- (A 0 0)^-1 * (y *m dlsubmx A) 0 0)%:M y != 0.
  by apply/eqP => /row_mx_eq0[_ /eqP]; rewrite (negbTE nzy).
have := pdA _ nz; rewrite quad_block quad_schur /=.
set b := (y *m dlsubmx A) 0 0; set c := (ursubmx A *m y^T) 0 0.
set q := dot _ _; set a := A 0 0 in gt0 *.
have nza : a != 0 by rewrite gt_eqF.
suff -> : a * (- a^-1 * b) ^+ 2 + - a^-1 * b * (b + c) + q
          = q - a^-1 * (b * c) by [].
by field.
Qed.

Lemma schur_sym (n : nat) (A : 'M[F]_(1 + n)) : A^T = A -> (schur A)^T = schur A.
Proof.
move=> symA; rewrite /schur linearB linearZ /= trmx_mul.
by rewrite trmx_drsub trmx_ursub trmx_dlsub symA.
Qed.

Lemma pivots_posdef (d : nat) (A : 'M[F]_d) :
  A^T = A -> cholesky_pivots A -> posdef A.
Proof.
elim: d A => [|n IH] /=; first by move=> A _ _ x; rewrite [x]thinmx0 eqxx.
rewrite -['M[F]_n.+1]/'M[F]_(1 + n) => A symA.
case/andP=> gt0 /(IH _ (schur_sym symA)) pdS x0.
pose x : 'rV[F]_(1 + n) := x0; rewrite -[x0]/x [x]row_mx_split; set u := x 0 0; set y := rsubmx x => nz.
rewrite quad_block /=.
have Ebc : (ursubmx A *m y^T) 0 0 = (y *m dlsubmx A) 0 0.
  by rewrite -[ursubmx A]trmxK -trmx_mul trmx_ursub symA mxE.
rewrite Ebc; set b := (y *m dlsubmx A) 0 0; set a := A 0 0 in gt0 *.
have nza : a != 0 by rewrite gt_eqF.
have -> : a * u ^+ 2 + u * (b + b) + dot (y *m drsubmx A) y
          = a * (u + a^-1 * b) ^+ 2 + dot (y *m schur A) y.
  by rewrite quad_schur Ebc -/a -/b; field.
have sq : 0 <= a * (u + a^-1 * b) ^+ 2 by rewrite mulr_ge0 ?sqr_ge0 // ltW.
have [y0|nzy] := eqVneq y 0; last by apply: ltr_wpDl => //; apply: pdS.
have nzu : u != 0.
  by apply: contraNneq nz => u0; rewrite u0 y0 raddf0 row_mx0.
rewrite /b y0 !mul0mx /dot mul0mx !mxE mulr0 !addr0.
by rewrite pmulr_rgt0 // exprn_even_gt0.
Qed.

Lemma lower_sym_sym (d : nat) (C : 'M[F]_d) : (lower_sym C)^T = lower_sym C.
Proof.
apply/matrixP => i j; rewrite !mxE; case: (ltngtP i j) => // ij.
by rewrite (val_inj ij).
Qed.

Lemma ref_inv_correct (d : nat) (C D : 'M[F]_d) :
  ref_inv C = Some D -> C *m D = 1%:M.
Proof. by rewrite /ref_inv; case: ifP => // uC [<-]; rewrite mulmxV. Qed.

Lemma ref_inv_defined (d : nat) (C : 'M[F]_d) : C \in unitmx -> ref_inv C.
Proof. by rewrite /ref_inv => ->. Qed.

Lemma ref_solve_correct (d : nat) (C : 'M[F]_d) (b x : 'rV[F]_d) :
  ref_solve C b = Some x -> C *m x^T = b^T.
Proof.
rewrite /ref_solve; case: ifP => // uC [<-].
by rewrite trmx_mul trmxK mulmxA mulmxV // mul1mx.
Qed.

Lemma ref_solve_singular (d : nat) (C : 'M[F]_d) (b : 'rV[F]_d) :
  C \notin unitmx -> ref_solve C b = None.
Proof. by rewrite /ref_solve => /negbTE ->. Qed.

Lemma ref_solve_defined (d : nat) (C : 'M[F]_d) (b : 'rV[F]_d) :
  C \in unitmx -> ref_solve C b.
Proof. by rewrite /ref_solve => ->. Qed.

Lemma ref_cho_positive (d : nat) (C : 'M[F]_d) :
  ref_cho_factor C -> posdef (lower_sym C).
Proof.
rewrite /ref_cho_factor; case: ifP => // piv _.
exact: pivots_posdef (lower_sym_sym C) piv.
Qed.

Lemma ref_cho_defined (d : nat) (C : 'M[F]_d) :
  posdef (lower_sym C) -> ref_cho_factor C.
Proof. by rewrite /ref_cho_factor => /posdef_pivots ->. Qed.

Lemma ref_cho_correct (d : nat) (C c : 'M[F]_d) (b : 'rV[F]_d) :
  ref_cho_factor C = Some c -> lower_sym C *m (ref_cho_solve c b)^T = b^T.
Proof.
move=> Ec; have uC : lower_sym C \in unitmx.
  by apply/posdef_unit/ref_cho_positive; rewrite Ec.
move: Ec; rewrite /ref_cho_factor /ref_cho_solve; case: ifP => // _ [<-].
by rewrite trmx_mul trmxK mulmxA mulmxV // mul1mx.
Qed.

(** The field need not have a logarithm either: [lg] is a parameter. *)
Definition reference_numpy (lg : F -> F) : numpy F :=
  @Numpy F lg (@ref_inv F) (@moore_penrose F) (@ref_solve F)
    (fun d => 'M[F]_d) (@ref_cho_factor F) (@ref_cho_solve F)
    (@ref_nan_form F)
    ref_inv_correct ref_inv_defined (@moore_penroseP)
    ref_solve_correct ref_solve_singular ref_solve_defined
    ref_cho_correct ref_cho_defined ref_cho_positive.

End LinearAlgebra.

Definition rat_numpy : numpy rat := reference_numpy lg_rat.

(** ** Consequences of the routines' laws *)

Section Contract.

Variable F : realFieldType.
Variable np : numpy F.

Lemma inv_unit (d : nat) (C : 'M[F]_d) :
  C \in unitmx -> linalg_inv np C = Some (invmx C).
Proof.
move=> uC; case E: (linalg_inv np C) (inv_defined np uC) => [D|] // _.
by rewrite -[D]mul1mx -(mulVmx uC) -mulmxA (inv_correct E) mulmx1.
Qed.

Lemma inv_singular (d : nat) (C : 'M[F]_d) :
  C \notin unitmx -> linalg_inv np C = None.
Proof.
case E: (linalg_inv np C) => [D|] // /negP[].
by case/mulmx1_unit: (inv_correct E).
Qed.

Lemma pinv_unit (d : nat) (C : 'M[F]_d) :
  C \in unitmx -> linalg_pinv np C = invmx C.
Proof.
move=> uC; have [CPC _ _ _] := pinv_penrose np C.
by rewrite -[LHS](mulKmx uC) -[C *m _](mulmxK uC) CPC mulmxV // mulmx1.
Qed.

Lemma solve_unit (d : nat) (C : 'M[F]_d) (b : 'rV[F]_d) :
  C \in unitmx -> linalg_solve np C b = Some (b *m (invmx C)^T).
Proof.
move=> uC; case E: (linalg_solve np C b) (solve_defined np b uC) => [x|] // _.
congr Some; apply: trmx_inj.
by rewrite trmx_mul trmxK -(solve_correct E) mulKmx.
Qed.

Lemma cho_posdef (d : nat) (C : 'M[F]_d) (b : 'rV[F]_d) :
  posdef (lower_sym C) ->
  exists2 c, cho_factor np C = Some c
           & cho_solve c b = b *m (invmx (lower_sym C))^T.
Proof.
move=> pdC; have uC := posdef_unit pdC.
case E: (cho_factor np C) (cho_defined np pdC) => [c|] // _; exists c => //.
apply: trmx_inj.
by rewrite trmx_mul trmxK -(cho_correct b E) mulKmx.
Qed.

(** [r @ x] for the solution [x] of [C x = r] is the form [r C^-1 r]. *)
Lemma dot_solution (d : nat) (C : 'M[F]_d) (r : 'rV[F]_d) :
  dot r (r *m (invmx C)^T) = dot (r *m invmx C) r.
Proof. by rewrite /dot trmx_mul trmxK mulmxA. Qed.

End Contract.

(** ** The per-point computation and the loop over the batch *)

Section Discrepancies.

Variable F : realFieldType.
Variable np : numpy F.
Variable cfg : config F.

(** The value of a call depends on the caller's array at entry only. *)
Lemma discrepancy_value (d : nat) (r : 'rV[F]_d) (C : 'M[F]_d) :
  (_compute_normalized_discrepancy np cfg r C).1
  = normalized_discrepancy np cfg r C.
Proof.
rewrite /_compute_normalized_discrepancy /normalized_discrepancy.
rewrite /inversion_of /regularized /damping_step /symmetrize_step.
case: (symmetrize cfg); case: (0 < damping cfg) => /=;
  by do 4![case: (String.eqb _ _) => //=].
Qed.

(** The caller's array after a call. *)
Lemma discrepancy_array (d : nat) (r : 'rV[F]_d) (C : 'M[F]_d) :
  (_compute_normalized_discrepancy np cfg r C).2
  = if ~~ symmetrize cfg && (0 < damping cfg)
    then C + damping cfg *: 1%:M else C.
Proof.
rewrite /_compute_normalized_discrepancy.
by case: (symmetrize cfg); case: (0 < damping cfg).
Qed.

Lemma discrepancies_value (d : nat) (rs : seq 'rV[F]_d) (Cs : seq 'M[F]_d) :
  (_compute_normalized_discrepancies np cfg rs Cs).1
  = collect [seq (_compute_normalized_discrepancy np cfg p.1 p.2).1
            | p <- zip rs Cs].
Proof.
elim: rs Cs => [|r rs IH] [|C Cs] //=.
case: (_compute_normalized_discrepancy np cfg r C) => [[x|e] C'] //=.
by rewrite -IH; case: (_compute_normalized_discrepancies np cfg rs Cs).
Qed.

Lemma discrepancies_spec (d : nat) (rs : seq 'rV[F]_d) (Cs : seq 'M[F]_d) :
  (_compute_normalized_discrepancies np cfg rs Cs).1
  = discrepancy_vector np cfg rs Cs.
Proof.
rewrite discrepancies_value /discrepancy_vector; congr collect.
by apply: eq_map => p; rewrite discrepancy_value.
Qed.

Lemma size_centered (N d : nat) (sol : Normal F N d)
    (ref : N.-tuple 'rV[F]_d) :
  size (centered sol ref) = N.
Proof. by rewrite /centered size_map size_zip !size_tuple minnn. Qed.

Lemma size_collect (T : Type) (xs : seq (outcome T)) (vs : seq T) :
  collect xs = Return vs -> size vs = size xs.
Proof.
elim: xs vs => [|[x|e] xs IH] vs //=; first by case=> <-.
by case: (collect xs) IH => //= ws IH [<-] /=; rewrite (IH ws).
Qed.

End Discrepancies.

Section Means.

Variable F : realFieldType.

Lemma np_sum_fin (ds : seq F) :
  np_sum (map (@Fin F) ds) = Fin (\sum_(x <- ds) x).
Proof.
by elim: ds => [|x ds IH]; rewrite /np_sum ?big_nil //= -/(np_sum _) IH big_cons.
Qed.

Lemma np_mean_fin (ds : seq F) :
  (0 < size ds)%N ->
  np_mean (map (@Fin F) ds) = Fin ((\sum_(x <- ds) x) / (size ds)%:R).
Proof.
by rewrite /np_mean size_map np_sum_fin; case: (size ds).
Qed.

End Means.

(** ** [np.cov] computes the sample covariance *)

Section SampleCovariance.

Variable F : realFieldType.

Lemma sum_nth (T : Type) (x0 : T) (V : zmodType) (rs : seq T) (f : T -> V) :
  \sum_(r <- rs) f r = \sum_(k < size rs) f (nth x0 rs k).
Proof. by rewrite (big_nth x0) big_mkord. Qed.

Lemma np_cov_nan (d : nat) (rs : seq 'rV[F]_d) :
  (size rs <= 1)%N -> np_cov rs = None.
Proof. by rewrite /np_cov leqn0 subn_eq0 => ->. Qed.

Lemma np_cov_sample (d : nat) (rs : seq 'rV[F]_d) :
  (1 < size rs)%N -> np_cov rs = Some (sample_covariance rs).
Proof.
move=> lt1N; rewrite /np_cov leqn0 subn_eq0 leqNgt lt1N /=.
congr (Some (_ *: _)); apply/matrixP => i j.
rewrite mxE summxE (sum_nth 0); apply: eq_bigr => k _.
rewrite !mxE big_ord1 !mxE !summxE !(sum_nth 0) ![_^-1 * _]mulrC.
by congr (_ * _); congr (_ - _ / _); apply: eq_bigr => l _; rewrite mxE.
Qed.

End SampleCovariance.

(** ** The steps of the per-point computation *)

Section Steps.

Variable F : realFieldType.
Variable np : numpy F.

(** C3: the normalized discrepancy of a residual [r] and a covariance [C]
    is the configured inversion strategy applied to the covariance after
    step 1 (the symmetric part 0.5 * (C + C^T), when symmetrize is enabled)
    and then step 2 (damping * I_d added to the result of step 1, if and
    only if damping is strictly positive; a damping of exactly 0, or below,
    adds nothing). *)
Theorem C3_steps_in_order (cfg : config F) (d : nat) (r : 'rV[F]_d)
    (C : 'M[F]_d) :
  [/\ (_compute_normalized_discrepancy np cfg r C).1
      = (if inversion_of (strategy cfg) is Some s
         then inversion_step np s r (damping_step cfg (symmetrize_step cfg C))
         else Raise ValueError_not_known),
      symmetrize_step cfg C
      = (if symmetrize cfg then 2%:R^-1 *: (C + C^T) else C)
    & forall M : 'M[F]_d,
        (0 < damping cfg -> damping_step cfg M = M + damping cfg *: 1%:M)
        /\ (damping cfg <= 0 -> damping_step cfg M = M)].
Proof.
split=> [||M]; first exact: discrepancy_value.
  by [].
by rewrite /damping_step; split=> [->|] //; rewrite leNgt => /negbTE ->.
Qed.

End Steps.

(** ** The results of [anees] and [nci] *)

Section Results.

Variable F : realFieldType.
Variable np : numpy F.
Variable cfg : config F.

Lemma anees_value (N d : nat) (sol : Normal F N d) (ref : N.-tuple 'rV[F]_d) :
  (anees np cfg sol ref).1
  = (ds <- (_compute_normalized_discrepancies np cfg
              (centered sol ref) (cov sol)).1 ;;
     Return (np_mean (map (@Fin F) ds))).
Proof.
by rewrite /anees; case: (_compute_normalized_discrepancies _ _ _ _).
Qed.

Lemma nci_value (N d : nat) (sol : Normal F N d) (ref : N.-tuple 'rV[F]_d) :
  (nci np cfg sol ref).1
  = (A <- (_compute_normalized_discrepancies np cfg
             (centered sol ref) (cov sol)).1 ;;
     B <- match np_cov (centered sol ref) with
          | Some c =>
              ds <- (_compute_normalized_discrepancies np cfg
                       (centered sol ref)
                       (nseq (size (centered sol ref)) c)).1 ;;
              Return (map (@Fin F) ds)
          | None =>
              collect (map (@_compute_normalized_discrepancy_nan F np cfg d)
                           (centered sol ref))
          end ;;
     Return (np_mul (Fin 10%:R)
               (np_sub (np_mean (map (np_log10_with (log10 np))
                                     (map (@Fin F) A)))
                       (np_mean (map (np_log10_with (log10 np)) B))))).
Proof.
by rewrite /nci; case: (_compute_normalized_discrepancies _ _ _ (cov sol)).
Qed.

End Results.

(** ** The invalid-configuration error *)

Section InvalidConfiguration.

Variable F : realFieldType.
Variable np : numpy F.

Lemma inversion_of_recognized (s : string) :
  reflect (recognized s) (inversion_of s).
Proof.
rewrite /inversion_of.
case: (String.eqb_spec s "inv") => [->|n1]; first by left; constructor 1.
case: (String.eqb_spec s "pinv") => [->|n2]; first by left; constructor 2.
case: (String.eqb_spec s "solve") => [->|n3]; first by left; constructor 3.
case: (String.eqb_spec s "cholesky") => [->|n4]; first by left; constructor 4.
by right; case.
Qed.

Lemma config_errorP (T : Type) (x : outcome T) :
  reflect (x = Raise ValueError_not_known) (config_error x).
Proof. by case: x => [v|[]] /=; constructor. Qed.

Lemma config_error_bind (T U : Type) (x : outcome T) (k : T -> outcome U) :
  ~~ config_error x -> (forall v, ~~ config_error (k v)) ->
  ~~ config_error (bind x k).
Proof. by case: x => [v|[]] //= _ ->. Qed.

Lemma config_error_collect (T : Type) (xs : seq (outcome T)) :
  (forall x, List.In x xs -> ~~ config_error x) ->
  ~~ config_error (collect xs).
Proof.
elim: xs => [|x xs IH] //= ok; apply: config_error_bind => [|v].
  by apply: ok; left.
by apply: config_error_bind => // ; apply: IH => y yxs; apply: ok; right.
Qed.

Lemma config_error_library (T : Type) (x : option T) :
  ~~ config_error (of_library x).
Proof. by case: x. Qed.

Lemma discrepancy_recognized (cfg : config F) (d : nat) (r : 'rV[F]_d)
    (C : 'M[F]_d) :
  recognized (strategy cfg) ->
  ~~ config_error (_compute_normalized_discrepancy np cfg r C).1.
Proof.
move=> /inversion_of_recognized; rewrite discrepancy_value.
rewrite /normalized_discrepancy; case: (inversion_of _) => [[]|] //= _;
  by apply: config_error_bind => //; apply: config_error_library.
Qed.

Lemma discrepancy_unrecognized (cfg : config F) (d : nat) (r : 'rV[F]_d)
    (C : 'M[F]_d) :
  ~ recognized (strategy cfg) ->
  (_compute_normalized_discrepancy np cfg r C).1 = Raise ValueError_not_known.
Proof.
move=> /inversion_of_recognized; rewrite discrepancy_value.
by rewrite /normalized_discrepancy; case: (inversion_of _).
Qed.

Lemma discrepancies_recognized (cfg : config F) (d : nat)
    (rs : seq 'rV[F]_d) (Cs : seq 'M[F]_d) :
  recognized (strategy cfg) ->
  ~~ config_error (_compute_normalized_discrepancies np cfg rs Cs).1.
Proof.
move=> ok; rewrite discrepancies_value; apply: config_error_collect => x.
rewrite -/(List.map _ _) => /List.in_map_iff[p [<- _]].
exact: discrepancy_recognized.
Qed.

Lemma discrepancies_unrecognized (cfg : config F) (d : nat)
    (rs : seq 'rV[F]_d) (Cs : seq 'M[F]_d) :
  ~ recognized (strategy cfg) -> (0 < size rs)%N -> (0 < size Cs)%N ->
  (_compute_normalized_discrepancies np cfg rs Cs).1
  = Raise ValueError_not_known.
Proof.
move=> bad; case: rs Cs => [|r rs] [|C Cs] //= _ _.
have := discrepancy_unrecognized r C bad.
by case: (_compute_normalized_discrepancy np cfg r C) => [x C'] /= ->.
Qed.

(** C4: when the configured strategy is none of 'inv', 'pinv', 'solve',
    'cholesky', the normalized discrepancy computation raises the
    invalid-configuration error, and so do [anees] and [nci] on every
    non-empty batch; when the strategy is one of the four, neither the
    computation nor [anees] nor [nci] raises that error. *)
Theorem C4_invalid_configuration (cfg : config F) :
  (~ recognized (strategy cfg) ->
     (forall (d : nat) (r : 'rV[F]_d) (C : 'M[F]_d),
        (_compute_normalized_discrepancy np cfg r C).1
        = Raise ValueError_not_known)
     /\ (forall (N d : nat) (sol : Normal F N d) (ref : N.-tuple 'rV[F]_d),
           (0 < N)%N ->
           (anees np cfg sol ref).1 = Raise ValueError_not_known
           /\ (nci np cfg sol ref).1 = Raise ValueError_not_known))
  /\ (recognized (strategy cfg) ->
        (forall (d : nat) (r : 'rV[F]_d) (C : 'M[F]_d),
           (_compute_normalized_discrepancy np cfg r C).1
           <> Raise ValueError_not_known)
        /\ (forall (N d : nat) (sol : Normal F N d)
                   (ref : N.-tuple 'rV[F]_d),
              (anees np cfg sol ref).1 <> Raise ValueError_not_known
              /\ (nci np cfg sol ref).1 <> Raise ValueError_not_known)).
Proof.
split=> [bad|ok]; split=> [d r C|N d sol ref].
- exact: discrepancy_unrecognized.
- move=> lt0N; rewrite anees_value nci_value.
  by rewrite discrepancies_unrecognized ?size_centered ?size_tuple.
- exact/config_errorP/discrepancy_recognized.
- split; apply/config_errorP; rewrite ?anees_value ?nci_value.
    by apply: config_error_bind => //; apply: discrepancies_recognized.
  apply: config_error_bind => [|A]; first exact: discrepancies_recognized.
  apply: config_error_bind => // ; case: (np_cov _) => [c|].
    by apply: config_error_bind => //; apply: discrepancies_recognized.
  apply: config_error_collect => x.
  rewrite -/(List.map _ _) => /List.in_map_iff[m [<- _]].
  rewrite /_compute_normalized_discrepancy_nan.
  by case: ok => -> /=; apply: config_error_library.
Qed.

End InvalidConfiguration.

(** ** Closed forms on an invertible covariance *)

Section ClosedForms.

Variable F : realFieldType.
Variable np : numpy F.

Lemma dotZl (d : nat) (a : F) (u v : 'rV[F]_d) :
  dot (a *: u) v = a * dot u v.
Proof. by rewrite /dot -scalemxAl mxE. Qed.

Lemma dot0l (d : nat) (C : 'M[F]_d) (v : 'rV[F]_d) : dot (0 *m C) v = 0.
Proof. by rewrite /dot !mul0mx mxE. Qed.

Lemma dot_self_ge0 (d : nat) (u : 'rV[F]_d) : 0 <= dot u u.
Proof. by rewrite dotE; apply: sumr_ge0 => j _; rewrite -expr2 sqr_ge0. Qed.

Lemma dot_self_gt0 (d : nat) (u : 'rV[F]_d) : u != 0 -> 0 < dot u u.
Proof.
move=> nz; rewrite lt0r dot_self_ge0 andbT.
by apply: contraNneq nz => /dot_self_eq0 ->.
Qed.

Lemma scalar_unit (d : nat) (a : F) : a != 0 -> (a *: 1%:M : 'M[F]_d) \in unitmx.
Proof. by move=> nz; rewrite unitmxZ ?unitmx1 // unitfE. Qed.

Lemma scalar_inv (d : nat) (a : F) :
  invmx (a *: 1%:M : 'M[F]_d) = a^-1 *: 1%:M.
Proof. by rewrite !scalemx1 invmx_scalar. Qed.

Lemma scalar_lower_sym (d : nat) (a : F) :
  lower_sym (a *: 1%:M : 'M[F]_d) = a *: 1%:M.
Proof.
apply/matrixP => i j; rewrite !mxE; case: ifP => // _.
by rewrite [j == i]eq_sym.
Qed.

Lemma scalar_posdef (d : nat) (a : F) :
  0 < a -> posdef (a *: 1%:M : 'M[F]_d).
Proof.
move=> gt0 x nz; rewrite -scalemxAr mulmx1 dotZl.
by rewrite pmulr_rgt0 // dot_self_gt0.
Qed.

(** On an invertible matrix the strategies 'inv', 'pinv' and 'solve'
    return the form [r C^-1 r]; so does 'cholesky' on a matrix whose lower
    triangle is that of a positive definite matrix. *)
Lemma inv_step_unit (d : nat) (r : 'rV[F]_d) (C : 'M[F]_d) :
  C \in unitmx -> inversion_step np Inv r C = Return (dot (r *m invmx C) r).
Proof. by move=> uC; rewrite /= inv_unit. Qed.

Lemma pinv_step_unit (d : nat) (r : 'rV[F]_d) (C : 'M[F]_d) :
  C \in unitmx -> inversion_step np Pinv r C = Return (dot (r *m invmx C) r).
Proof. by move=> uC; rewrite /= pinv_unit. Qed.

Lemma solve_step_unit (d : nat) (r : 'rV[F]_d) (C : 'M[F]_d) :
  C \in unitmx -> inversion_step np Solve r C = Return (dot (r *m invmx C) r).
Proof. by move=> uC; rewrite /= solve_unit //= dot_solution. Qed.

Lemma cholesky_step_posdef (d : nat) (r : 'rV[F]_d) (C : 'M[F]_d) :
  posdef (lower_sym C) ->
  inversion_step np Cholesky r C
  = Return (dot (r *m invmx (lower_sym C)) r).
Proof.
move=> pdC; have [c Ec Es] := cho_posdef np r pdC.
by rewrite /= Ec /= Es dot_solution.
Qed.

Lemma scalar_form (d : nat) (a : F) (r : 'rV[F]_d) :
  dot (r *m invmx (a *: 1%:M)) r = (\sum_j r 0 j ^+ 2) / a.
Proof.
rewrite scalar_inv -scalemxAr mulmx1 dotZl dotE mulrC.
by congr (_ / _); apply: eq_bigr => j _; rewrite expr2.
Qed.

End ClosedForms.

(** ** The caller's covariance array *)

Section CallerArray.

Variable F : realFieldType.
Variable np : numpy F.

(** C5 (its failure): with symmetrize disabled and damping strictly
    positive, [cov += damping * np.eye(len(cov))] writes into the array the
    caller passed: after the call that array holds [C + damping * I_d],
    which differs from [C] in every dimension [d > 0]. *)
Theorem C5_damping_writes_caller_array (cfg : config F) (d : nat)
    (r : 'rV[F]_d) (C : 'M[F]_d) :
  symmetrize cfg = false -> 0 < damping cfg -> (0 < d)%N ->
  (_compute_normalized_discrepancy np cfg r C).2 = C + damping cfg *: 1%:M
  /\ (_compute_normalized_discrepancy np cfg r C).2 <> C.
Proof.
move=> nosym gt0 lt0d; rewrite discrepancy_array nosym gt0 /=; split=> //.
move/(congr1 (fun M => M - C)); rewrite addrC addKr subrr.
case: d lt0d => // d _ in r C * => /matrixP/(_ 0 0).
by rewrite !mxE eqxx mulr1 => /eqP; rewrite gt_eqF.
Qed.

End CallerArray.

(** ** Agreement of the strategies *)

Section Agreement.

Variable F : realFieldType.
Variable np : numpy F.

Lemma regularized_plain (s : string) (d : nat) (C : 'M[F]_d) :
  regularized (Config false 0 s) C = C.
Proof. by rewrite /regularized /damping_step /symmetrize_step /= ltxx. Qed.

Lemma strategy_value (sym : bool) (damp : F) (s : string) (i : inversion)
    (d : nat) (r : 'rV[F]_d) (C : 'M[F]_d) :
  inversion_of s = Some i ->
  (_compute_normalized_discrepancy np (Config sym damp s) r C).1
  = inversion_step np i r (regularized (Config sym damp s) C).
Proof. by rewrite discrepancy_value /normalized_discrepancy /= => ->. Qed.

(** C10: on a covariance that is invertible after the configured
    regularization, the strategies 'inv' ([mean @ inv(cov) @ mean]) and
    'solve' ([mean @ solve(cov, mean)]) return the same value, the form
    [r C^-1 r] of the regularized covariance. *)
Theorem C10_inv_solve_agree (sym : bool) (damp : F) (d : nat)
    (r : 'rV[F]_d) (C : 'M[F]_d) :
  regularized (Config sym damp "inv") C \in unitmx ->
  (_compute_normalized_discrepancy np (Config sym damp "inv") r C).1
  = Return (dot (r *m invmx (regularized (Config sym damp "inv") C)) r)
  /\ (_compute_normalized_discrepancy np (Config sym damp "solve") r C).1
     = Return (dot (r *m invmx (regularized (Config sym damp "inv") C)) r).
Proof.
move=> uC; rewrite (@strategy_value _ _ _ Inv) // (@strategy_value _ _ _ Solve) //.
by rewrite inv_step_unit // solve_step_unit.
Qed.

(** C6: with symmetrize disabled and damping 0, on the covariance
    sigma2 * I with sigma2 > 0, each of the four strategies returns
    |r|^2 / sigma2. *)
Theorem C6_scaled_identity (s : string) (d : nat) (r : 'rV[F]_d)
    (sigma2 : F) :
  0 < sigma2 -> recognized s ->
  (_compute_normalized_discrepancy np (Config false 0 s) r
     (sigma2 *: 1%:M)).1
  = Return ((\sum_j r 0 j ^+ 2) / sigma2).
Proof.
move=> gt0 ok; have uC : (sigma2 *: 1%:M : 'M[F]_d) \in unitmx.
  by rewrite scalar_unit // gt_eqF.
case: ok => ->.
- by rewrite (@strategy_value _ _ _ Inv) // regularized_plain inv_step_unit
             // scalar_form.
- by rewrite (@strategy_value _ _ _ Pinv) // regularized_plain pinv_step_unit
             // scalar_form.
- by rewrite (@strategy_value _ _ _ Solve) // regularized_plain
             solve_step_unit // scalar_form.
- rewrite (@strategy_value _ _ _ Cholesky) // regularized_plain.
  rewrite cholesky_step_posdef scalar_lower_sym ?scalar_form //.
  exact: scalar_posdef.
Qed.

End Agreement.

(** ** ANEES *)

Section Anees.

Variable F : realFieldType.
Variable np : numpy F.
Variable cfg : config F.

Lemma zip_map_l (T U V : Type) (f : T -> U) (s : seq T) (t : seq V) :
  zip (map f s) t = [seq (f q.1, q.2) | q <- zip s t].
Proof. by elim: s t => [|x s IH] [|y t] //=; rewrite IH. Qed.

Lemma centered_points (N d : nat) (sol : Normal F N d)
    (ref : N.-tuple 'rV[F]_d) :
  [seq (_compute_normalized_discrepancy np cfg p.1 p.2).1
  | p <- zip (centered sol ref) (cov sol)]
  = [seq (_compute_normalized_discrepancy np cfg (p.1.1 - p.1.2) p.2).1
    | p <- zip (zip (mean sol) ref) (cov sol)].
Proof. by rewrite /centered zip_map_l -map_comp. Qed.

Lemma size_points (N d : nat) (sol : Normal F N d)
    (ref : N.-tuple 'rV[F]_d) :
  size (zip (zip (mean sol) ref) (cov sol)) = N.
Proof. by rewrite !size_zip !size_tuple !minnn. Qed.

(** C7: on a non-empty batch of N points [anees] returns the sum divided
    by N of the discrepancies that [_compute_normalized_discrepancy]
    gives, in input order, on (mean - reference, covariance) of each point
    taken by itself; it raises what the first failing point raises. *)
Theorem C7_anees_is_mean (N d : nat) (sol : Normal F N d)
    (ref : N.-tuple 'rV[F]_d) :
  (0 < N)%N -> (anees np cfg sol ref).1 = anees_spec np cfg sol ref.
Proof.
move=> lt0N; rewrite anees_value discrepancies_value centered_points.
rewrite /anees_spec; case E: (collect _) => [ds|e] //=.
have szds : size ds = N by rewrite (size_collect E) size_map size_points.
by rewrite np_mean_fin szds.
Qed.

End Anees.

(** ** Non-finite values *)

Section NotFinite.

Variable F : realFieldType.

Lemma np_add_not_finite_l (x y : npfloat F) :
  ~~ is_finite x -> ~~ is_finite (np_add x y).
Proof. by case: x y => [a||| ] [b|||]. Qed.

Lemma np_add_not_finite_r (x y : npfloat F) :
  ~~ is_finite y -> ~~ is_finite (np_add x y).
Proof. by case: x y => [a||| ] [b|||]. Qed.

Lemma np_sub_not_finite_l (x y : npfloat F) :
  ~~ is_finite x -> ~~ is_finite (np_sub x y).
Proof. exact: np_add_not_finite_l. Qed.

Lemma np_sub_not_finite_r (x y : npfloat F) :
  ~~ is_finite y -> ~~ is_finite (np_sub x y).
Proof. by move=> nf; apply: np_add_not_finite_r; case: y nf. Qed.

Lemma np_mul_ten_not_finite (x : npfloat F) :
  ~~ is_finite x -> ~~ is_finite (np_mul (Fin 10%:R) x).
Proof. by case: x => [a|||] //= _; rewrite /inf_times ltr0n. Qed.

Lemma np_sum_not_finite (a : seq (npfloat F)) :
  has (fun x => ~~ is_finite x) a -> ~~ is_finite (np_sum a).
Proof.
elim: a => [|x a IH] //= /orP[nf|/IH nf].
  exact: np_add_not_finite_l.
exact: np_add_not_finite_r.
Qed.

Lemma np_mean_not_finite (a : seq (npfloat F)) :
  has (fun x => ~~ is_finite x) a -> ~~ is_finite (np_mean a).
Proof.
move=> bad; have := np_sum_not_finite bad; rewrite /np_mean.
by case: a bad => [|x a] //= _; case: (np_add _ _).
Qed.

Lemma log_not_finite (lg : F -> F) (x : npfloat F) :
  np_nonpositive x -> ~~ is_finite (np_log10_with lg x).
Proof.
case: x => [a|||] //=; rewrite le_eqVlt => /orP[/eqP ->|lt0].
  by rewrite ltxx eqxx.
by rewrite ltNge (ltW lt0) /= lt_eqF.
Qed.

Lemma mean_log_not_finite (lg : F -> F) (a : seq (npfloat F)) :
  has (@np_nonpositive F) a ->
  ~~ is_finite (np_mean (map (np_log10_with lg) a)).
Proof.
move=> bad; apply: np_mean_not_finite; rewrite has_map.
by apply: sub_has bad => x /=; apply: log_not_finite.
Qed.

End NotFinite.

(** ** NCI *)

Section Nci.

Variable F : realFieldType.
Variable np : numpy F.
Variable cfg : config F.

Lemma centered_residuals (N d : nat) (sol : Normal F N d)
    (ref : N.-tuple 'rV[F]_d) :
  centered sol ref = residuals sol ref.
Proof. by []. Qed.

(** The baseline discrepancies as [nci] computes them. *)
Lemma baseline_value (N d : nat) (sol : Normal F N d)
    (ref : N.-tuple 'rV[F]_d) :
  match np_cov (centered sol ref) with
  | Some c =>
      ds <- (_compute_normalized_discrepancies np cfg (centered sol ref)
               (nseq (size (centered sol ref)) c)).1 ;;
      Return (map (@Fin F) ds)
  | None =>
      collect (map (@_compute_normalized_discrepancy_nan F np cfg d)
                   (centered sol ref))
  end = baseline_discrepancies np cfg sol ref.
Proof.
rewrite /baseline_discrepancies -centered_residuals.
case: ltnP => szN.
  by rewrite np_cov_sample size_centered // discrepancies_spec.
by rewrite np_cov_nan // size_centered.
Qed.

Lemma nci_refines (N d : nat) (sol : Normal F N d)
    (ref : N.-tuple 'rV[F]_d) :
  (nci np cfg sol ref).1 = nci_spec np cfg sol ref.
Proof.
rewrite nci_value baseline_value /nci_spec /true_discrepancies.
rewrite discrepancies_spec -centered_residuals.
by case: (discrepancy_vector _ _ _ _).
Qed.

(** C2: [nci] returns 10 * (mean(log10(A)) - mean(log10(B))), with [A] the
    discrepancy vector of the residuals under the per-point covariances and
    [B] the discrepancy vector of the residuals under N copies of their
    sample covariance matrix, both by the same configured computation;
    when one of the two vectors raises, so does [nci]. *)
Theorem C2_nci_formula (N d : nat) (sol : Normal F N d)
    (ref : N.-tuple 'rV[F]_d) :
  (nci np cfg sol ref).1 = nci_spec np cfg sol ref.
Proof. exact: nci_refines. Qed.

(** C9: when both discrepancy vectors are computed and one of their
    entries is a number <= 0 (a zero residual gives 0), [nci] raises
    nothing: it returns a value that is not a finite number (an infinity
    or NaN). *)
Theorem C9_nci_not_finite (N d : nat) (sol : Normal F N d)
    (ref : N.-tuple 'rV[F]_d) (A B : seq (npfloat F)) :
  true_discrepancies np cfg sol ref = Return A ->
  baseline_discrepancies np cfg sol ref = Return B ->
  has (@np_nonpositive F) (A ++ B) ->
  exists2 v, (nci np cfg sol ref).1 = Return v & ~~ is_finite v.
Proof.
move=> EA EB bad; rewrite nci_refines /nci_spec EA EB /=.
eexists; first by [].
apply: np_mul_ten_not_finite; move: bad; rewrite has_cat => /orP[] bad.
  by apply: np_sub_not_finite_l; apply: mean_log_not_finite.
by apply: np_sub_not_finite_r; apply: mean_log_not_finite.
Qed.

End Nci.

(** ** Inflated covariances *)

Section Inflation.

Variable F : realFieldType.
Variable np : numpy F.

Lemma dotC (d : nat) (u v : 'rV[F]_d) : dot u v = dot v u.
Proof. by rewrite !dotE; apply: eq_bigr => j _; rewrite mulrC. Qed.

Lemma posdef_form_gt0 (d : nat) (r : 'rV[F]_d) (C : 'M[F]_d) :
  posdef C -> r != 0 -> 0 < dot (r *m invmx C) r.
Proof.
move=> pdC nz; have uC := posdef_unit pdC.
have nzy : r *m invmx C != 0.
  by apply: contraNneq nz => y0; rewrite -(mulmxKV uC r) y0 mul0mx.
by have := pdC _ nzy; rewrite mulmxKV // dotC.
Qed.

Lemma posdef_form_ge0 (d : nat) (r : 'rV[F]_d) (C : 'M[F]_d) :
  posdef C -> 0 <= dot (r *m invmx C) r.
Proof.
move=> pdC; have [->|nz] := eqVneq r 0; first by rewrite dot0l.
exact/ltW/posdef_form_gt0.
Qed.

Lemma posdefZ (d : nat) (k : F) (C : 'M[F]_d) :
  0 < k -> posdef C -> posdef (k *: C).
Proof.
by move=> gt0 pdC x nz; rewrite -scalemxAr dotZl pmulr_rgt0 //; apply: pdC.
Qed.

Lemma map_zip_unit (T : Type) (d : nat) (g h : 'rV[F]_d -> 'M[F]_d -> T)
    (rs : seq 'rV[F]_d) (Cs : seq 'M[F]_d) :
  all (fun C => C \in unitmx) Cs ->
  (forall r C, C \in unitmx -> g r C = h r C) ->
  [seq g p.1 p.2 | p <- zip rs Cs] = [seq h p.1 p.2 | p <- zip rs Cs].
Proof.
move=> uCs gh; elim: rs Cs uCs => [|r rs IH] [|C Cs] //= /andP[uC uCs].
by rewrite gh // IH.
Qed.

Lemma collect_return (T U : Type) (f : T -> U) (ps : seq T) :
  collect [seq Return (f p) | p <- ps] = Return (map f ps).
Proof. by elim: ps => [|p ps IH] //=; rewrite IH. Qed.

Lemma discrepancies_unit (s : string) (d : nat) (rs : seq 'rV[F]_d)
    (Cs : seq 'M[F]_d) :
  s = "inv"%string \/ s = "solve"%string ->
  all (fun C => C \in unitmx) Cs ->
  (_compute_normalized_discrepancies np (Config false 0 s) rs Cs).1
  = Return (forms rs Cs).
Proof.
move=> ok uCs; rewrite discrepancies_value /forms.
rewrite (map_zip_unit
           (g := fun r C =>
                   (_compute_normalized_discrepancy np (Config false 0 s) r C).1)
           (h := fun r C => Return (dot (r *m invmx C) r)) _ uCs).
  move=> r C uC; case: ok => ->.
    by rewrite (@strategy_value _ _ _ _ _ Inv) // regularized_plain
               inv_step_unit.
  by rewrite (@strategy_value _ _ _ _ _ Solve) // regularized_plain
             solve_step_unit.
exact: (collect_return (fun p => dot (p.1 *m invmx p.2) p.1)).
Qed.

Lemma forms_inflate (k : F) (d : nat) (rs : seq 'rV[F]_d)
    (Cs : seq 'M[F]_d) :
  k != 0 -> all (fun C => C \in unitmx) Cs ->
  forms rs [seq k *: C | C <- Cs] = [seq k^-1 * q | q <- forms rs Cs].
Proof.
move=> nz; rewrite /forms.
elim: rs Cs => [|r rs IH] [|C Cs] //= /andP[uC uCs]; rewrite {}IH //.
by rewrite invmxZ ?unitmxZ ?unitfE // -scalemxAr dotZl.
Qed.

Lemma forms_sum_ge0 (d : nat) (rs : seq 'rV[F]_d) (Cs : seq 'M[F]_d) :
  (forall C, C \in Cs -> posdef C) -> 0 <= \sum_(q <- forms rs Cs) q.
Proof.
rewrite /forms; elim: rs Cs => [|r rs IH] [|C Cs] pd /=;
  rewrite ?big_nil ?big_cons //.
apply: addr_ge0; first by apply: posdef_form_ge0; apply: pd; rewrite mem_head.
by apply: IH => C' inCs; apply: pd; rewrite in_cons inCs orbT.
Qed.

Lemma forms_sum_gt0 (d : nat) (rs : seq 'rV[F]_d) (Cs : seq 'M[F]_d) :
  size rs = size Cs -> (forall C, C \in Cs -> posdef C) ->
  has (fun r => r != 0) rs -> 0 < \sum_(q <- forms rs Cs) q.
Proof.
elim: rs Cs => [|r rs IH] [|C Cs] //= [sz] pd.
have pdC : posdef C by apply: pd; rewrite mem_head.
have pdCs C' : C' \in Cs -> posdef C'.
  by move=> inCs; apply: pd; rewrite in_cons inCs orbT.
rewrite /forms /= big_cons -/(forms rs Cs) => /orP[nz|nzs].
  by apply: ltr_pwDl; [apply: posdef_form_gt0 | apply: forms_sum_ge0].
by apply: ltr_wpDl; [apply: posdef_form_ge0 | apply: IH].
Qed.

(** C8 (amended): for a batch whose covariance matrices are all positive
    definite and which has a non-zero residual, with strategy 'inv' or
    'solve', symmetrize disabled and damping 0, multiplying every covariance
    by k > 1 divides the value of [anees] by k, which makes it strictly
    smaller. *)
Theorem C8_inflation_decreases_anees (s : string) (k : F) (N d : nat)
    (sol : Normal F N d) (ref : N.-tuple 'rV[F]_d) :
  s = "inv"%string \/ s = "solve"%string -> 1 < k ->
  (forall i, posdef (tnth (cov sol) i)) ->
  has (fun r => r != 0) (centered sol ref) ->
  exists2 v,
    (anees np (Config false 0 s) sol ref).1 = Return (Fin v)
    & (anees np (Config false 0 s) (inflate k sol) ref).1
      = Return (Fin (v / k))
      /\ v / k < v.
Proof.
move=> ok gt1 pd nz.
have gt0 : 0 < k by apply: lt_trans gt1.
have pdC C : C \in cov sol -> posdef C by case/tnthP => i ->.
have uCs : all (fun C => C \in unitmx) (cov sol).
  by apply/allP => C /pdC; apply: posdef_unit.
have uCs' : all (fun C => C \in unitmx) [seq k *: C | C <- cov sol].
  by rewrite all_map; apply: sub_all uCs => C uC /=; rewrite unitmxZ ?unitfE ?gt_eqF.
have lt0N : (0 < N)%N.
  by rewrite -(size_centered sol ref); case: (centered sol ref) nz.
have szf : size (forms (centered sol ref) (cov sol)) = N.
  by rewrite /forms size_map size_zip size_centered size_tuple minnn.
exists ((\sum_(q <- forms (centered sol ref) (cov sol)) q) / N%:R).
  by rewrite anees_value discrepancies_unit //= np_mean_fin szf.
split.
  rewrite anees_value -[centered (inflate k sol) ref]/(centered sol ref).
  rewrite -[tval (cov (inflate k sol))]/[seq k *: C | C <- cov sol].
  rewrite discrepancies_unit //= forms_inflate ?gt_eqF //.
  rewrite np_mean_fin size_map szf // big_map -mulr_sumr.
  by congr (Return (Fin _)); rewrite -mulrA mulrC.
rewrite ltr_pdivrMr // ltr_pMr // divr_gt0 ?ltr0n //.
by apply: forms_sum_gt0 => //; rewrite size_centered size_tuple.
Qed.

End Inflation.

(** ** The scalar case (d = 1) *)

Section Scalar.

Variable F : realFieldType.

Lemma scalar_mx_unit (d : nat) (a : F) : a != 0 -> (a%:M : 'M[F]_d) \in unitmx.
Proof. by move=> nz; rewrite -scalemx1 scalar_unit. Qed.

Lemma scalar_mx_posdef (d : nat) (a : F) : 0 < a -> posdef (a%:M : 'M[F]_d).
Proof. by move=> gt0; rewrite -scalemx1; apply: scalar_posdef. Qed.

Lemma scalar_mx_form (a b : F) :
  dot ((b%:M : 'rV[F]_1) *m invmx a%:M) b%:M = b ^+ 2 / a.
Proof. by rewrite -[a%:M]scalemx1 scalar_form big_ord1 mxE eqxx mulr1n. Qed.

Lemma zero_mx_singular (d : nat) : (0 : 'M[F]_d.+1) \notin unitmx.
Proof. by rewrite unitmxE det0 unitr0. Qed.

Lemma solve_step_singular (np : numpy F) (d : nat) (r : 'rV[F]_d)
    (C : 'M[F]_d) :
  C \notin unitmx -> inversion_step np Solve r C = Raise LinAlgError.
Proof. by move=> sC; rewrite /= solve_singular. Qed.

Lemma scalar_sample_covariance (xs : seq F) :
  sample_covariance [seq (x%:M : 'rV[F]_1) | x <- xs] = (variance xs)%:M.
Proof.
rewrite /sample_covariance /sample_mean /variance size_map !big_map.
rewrite -(raddf_sum (@scalar_mx F 1)) scale_scalar_mx.
rewrite -[X in _ *: X = _](@eq_bigr _ _ _ _ _ _
   (fun x => ((x - (size xs)%:R^-1 * \sum_(y <- xs) y) ^+ 2)%:M)).
  by move=> x _; rewrite -raddfB /= tr_scalar_mx -scalar_mxM expr2.
by rewrite -(raddf_sum (@scalar_mx F 1)) scale_scalar_mx.
Qed.

End Scalar.

(** ** The concrete scenario of the specification, over the rationals *)

Section Scenario.

Variable np : numpy rat.

Lemma scenario_centered :
  centered scenario_solution scenario_reference
  = [seq (x%:M : 'rV[rat]_1) | x <- [:: 1; 0; -2]].
Proof.
by rewrite /centered /= -!raddfB /=; congr [:: _%:M; _%:M; _%:M]; apply/eqP.
Qed.

Lemma scenario_cov_unit :
  all (fun C => C \in unitmx) (cov scenario_solution).
Proof. by rewrite /= !scalar_mx_unit. Qed.

Lemma scenario_discrepancies (s : string) :
  s = "inv"%string \/ s = "solve"%string ->
  (_compute_normalized_discrepancies np (Config false 0 s)
     (centered scenario_solution scenario_reference)
     (cov scenario_solution)).1 = Return [:: 1; 0; 1].
Proof.
move=> ok; rewrite discrepancies_unit ?scenario_cov_unit // scenario_centered.
by rewrite /forms /= !scalar_mx_form; congr (Return [:: _; _; _]); apply/eqP.
Qed.

(** C1: in the scenario d = 1, N = 3, means [1, 2, 3], reference
    [0, 2, 5], covariances [1, 1, 4], with strategy 'solve', symmetrize
    disabled and damping 0, the residuals are [1, 0, -2], the normalized
    discrepancies are [1, 0, 1] and [anees] returns 2/3. *)
Theorem C1_scenario :
  [/\ centered scenario_solution scenario_reference
      = [:: 1%:M; 0%:M; (- 2)%:M],
      (_compute_normalized_discrepancies np scenario_config
         (centered scenario_solution scenario_reference)
         (cov scenario_solution)).1 = Return [:: 1; 0; 1]
    & (anees np scenario_config scenario_solution scenario_reference).1
      = Return (Fin (2 / 3))].
Proof.
split; first exact: scenario_centered.
  by apply: scenario_discrepancies; right.
rewrite anees_value (scenario_discrepancies (or_intror erefl)) /=.
by rewrite /np_mean /=; congr (Return (Fin _)); apply/eqP.
Qed.

End Scenario.

(** ** Concrete instances *)

Section Instances.

#[local] Opaque _compute_normalized_discrepancy.

Lemma discrepancies_singular (F : realFieldType) (np : numpy F) (d : nat)
    (r : 'rV[F]_d) (rs : seq 'rV[F]_d) (C : 'M[F]_d) (Cs : seq 'M[F]_d) :
  C \notin unitmx ->
  (_compute_normalized_discrepancies np (Config false 0 "solve")
     (r :: rs) (C :: Cs)).1 = Raise LinAlgError.
Proof.
move=> sC; rewrite discrepancies_value /=.
by rewrite (@strategy_value _ _ _ _ _ Solve) // regularized_plain
           solve_step_singular.
Qed.

(** C8 as stated fails on a batch with a singular covariance: the residual
    is 1, the covariance 0 (a degenerate Gaussian), and [anees] raises
    before and after the covariance is multiplied by 2, so that no value
    decreases.  Invertible covariances are not enough either: with the
    matrix -1 for a covariance [anees] goes from -1 up to -1/2. *)
Lemma C8_counterexample_singular :
  [/\ has (fun r => r != 0) (centered singular_solution singular_reference),
      (anees rat_numpy scenario_config singular_solution
         singular_reference).1 = Raise LinAlgError
    & (anees rat_numpy scenario_config (inflate 2 singular_solution)
         singular_reference).1 = Raise LinAlgError]
  /\ [/\ (anees rat_numpy scenario_config indefinite_solution
            singular_reference).1 = Return (Fin (- 1)),
          (anees rat_numpy scenario_config (inflate 2 indefinite_solution)
            singular_reference).1 = Return (Fin (- 1 / 2))
        & ~~ (- 1 / 2 < - 1 :> rat)].
Proof.
have nz : (1%:M - 0%:M : 'rV[rat]_1) != 0.
  by rewrite -raddfB /=; apply/eqP => /matrixP/(_ 0 0); rewrite !mxE.
split; split=> //.
- by rewrite /centered /= orbF.
- rewrite anees_value /scenario_config.
  rewrite -[centered _ _]/[:: 1%:M - 0%:M] -[tval (cov _)]/[:: 0%:M].
  by rewrite discrepancies_singular // raddf0 zero_mx_singular.
- rewrite anees_value /scenario_config.
  rewrite -[centered _ _]/[:: 1%:M - 0%:M] -[tval (cov _)]/[:: 2 *: 0%:M].
  by rewrite discrepancies_singular // raddf0 scaler0 zero_mx_singular.
- rewrite anees_value /scenario_config.
  rewrite -[centered _ _]/[:: 1%:M - 0%:M] -[tval (cov _)]/[:: (- 1)%:M].
  rewrite (discrepancies_unit _ _ (or_intror (erefl _)));
    first by rewrite /= scalar_mx_unit.
  rewrite /forms /= -raddfB /= scalar_mx_form /np_mean /=.
  by congr (Return (Fin _)); apply/eqP.
- rewrite anees_value /scenario_config.
  rewrite -[centered _ _]/[:: 1%:M - 0%:M]
          -[tval (cov _)]/[:: 2 *: (- 1)%:M].
  rewrite (discrepancies_unit _ _ (or_intror (erefl _)));
    first by rewrite /= scale_scalar_mx scalar_mx_unit.
  rewrite /forms /= -raddfB /= scale_scalar_mx scalar_mx_form /np_mean /=.
  by congr (Return (Fin _)); apply/eqP.
Qed.

(** The failing input of C5: d = 1, residual 1, covariance 1, symmetrize
    disabled, damping 1: the caller's covariance is 2 after the call. *)
Lemma C5_witness_damping_one :
  (_compute_normalized_discrepancy rat_numpy (Config false 1 "solve")
     (1%:M : 'rV[rat]_1) 1%:M).2 = 1%:M + 1 *: 1%:M
  /\ (_compute_normalized_discrepancy rat_numpy (Config false 1 "solve")
        (1%:M : 'rV[rat]_1) 1%:M).2 <> 1%:M.
Proof.
exact: (@C5_damping_writes_caller_array rat rat_numpy
          (Config false 1 "solve") 1 1%:M 1%:M (erefl _) isT isT).
Defined.

Lemma C6_witness_cholesky :
  0 < (2 : rat)
  /\ (_compute_normalized_discrepancy rat_numpy (Config false 0 "cholesky")
        (const_mx 1 : 'rV[rat]_2) (2 *: 1%:M)).1
     = Return ((\sum_j (const_mx 1 : 'rV[rat]_2) 0 j ^+ 2) / 2).
Proof.
split; first by [].
by apply: C6_scaled_identity => //; constructor 4.
Defined.

Lemma C7_witness_scenario :
  (0 < 3)%N
  /\ (anees rat_numpy scenario_config scenario_solution
        scenario_reference).1
     = anees_spec rat_numpy scenario_config scenario_solution
         scenario_reference.
Proof. by split=> //; apply: C7_anees_is_mean. Defined.

Lemma scenario_posdef (i : 'I_3) : posdef (tnth (cov scenario_solution) i).
Proof.
have := mem_tnth i (cov scenario_solution).
by rewrite !inE => /or3P[] /eqP ->; apply: scalar_mx_posdef.
Qed.

Lemma scenario_nonzero :
  has (fun r => r != 0) (centered scenario_solution scenario_reference).
Proof.
rewrite scenario_centered /=; apply/orP; left.
by apply/eqP => /matrixP/(_ 0 0); rewrite !mxE.
Qed.

Lemma C8_witness_scenario :
  exists2 v,
    (anees rat_numpy (Config false 0 "solve") scenario_solution
       scenario_reference).1 = Return (Fin v)
    & (anees rat_numpy (Config false 0 "solve")
         (inflate 2 scenario_solution) scenario_reference).1
      = Return (Fin (v / 2))
      /\ v / 2 < v.
Proof.
apply: C8_inflation_decreases_anees => //; first by right.
  exact: scenario_posdef.
exact: scenario_nonzero.
Defined.

Lemma C10_witness_regularized :
  regularized (Config true (1 : rat) "inv") (1%:M : 'M[rat]_1) \in unitmx
  /\ (_compute_normalized_discrepancy rat_numpy (Config true 1 "inv")
        (1%:M : 'rV[rat]_1) 1%:M).1
     = Return (dot ((1%:M : 'rV[rat]_1)
                    *m invmx (regularized (Config true 1 "inv") 1%:M)) 1%:M)
  /\ (_compute_normalized_discrepancy rat_numpy (Config true 1 "solve")
        (1%:M : 'rV[rat]_1) 1%:M).1
     = Return (dot ((1%:M : 'rV[rat]_1)
                    *m invmx (regularized (Config true 1 "inv") 1%:M)) 1%:M).
Proof.
have uC : regularized (Config true (1 : rat) "inv") (1%:M : 'M[rat]_1)
          \in unitmx.
  rewrite /regularized /damping_step /symmetrize_step /= trmx1 scale1r.
  by rewrite -raddfD /= scale_scalar_mx -raddfD /= scalar_mx_unit.
by split=> //; apply: C10_inv_solve_agree.
Defined.

Lemma bogus_unrecognized : ~ recognized "bogus".
Proof. by case. Qed.

Lemma C4_witness_bogus :
  (anees rat_numpy (Config false 0 "bogus") scenario_solution
     scenario_reference).1 = Raise ValueError_not_known
  /\ (nci rat_numpy (Config false 0 "bogus") scenario_solution
        scenario_reference).1 = Raise ValueError_not_known.
Proof.
have [bad _] := C4_invalid_configuration rat_numpy (Config false 0 "bogus").
by have [_ raises] := bad bogus_unrecognized; apply: raises.
Defined.

Lemma scenario_variance : variance [:: 1; 0; - 2 : rat] = 7 / 3.
Proof. by rewrite /variance unlock /=; apply/eqP. Qed.

Lemma scenario_true_discrepancies :
  true_discrepancies rat_numpy scenario_config scenario_solution
    scenario_reference = Return [:: Fin 1; Fin 0; Fin 1].
Proof.
rewrite /true_discrepancies -discrepancies_spec.
by rewrite -centered_residuals scenario_discrepancies //; right.
Qed.

Lemma scenario_baseline_discrepancies :
  baseline_discrepancies rat_numpy scenario_config scenario_solution
    scenario_reference = Return [:: Fin (3 / 7); Fin 0; Fin (12 / 7)].
Proof.
rewrite /baseline_discrepancies /= -centered_residuals scenario_centered.
rewrite scalar_sample_covariance scenario_variance -discrepancies_spec.
have uS : all (fun C => C \in unitmx) (nseq 3 ((7 / 3)%:M : 'M[rat]_1)).
  by rewrite /= !scalar_mx_unit.
rewrite (discrepancies_unit _ _ (or_intror (erefl _)) uS).
rewrite /forms /= !scalar_mx_form.
by congr (Return [:: Fin _; Fin _; Fin _]); apply/eqP.
Qed.

(** In the scenario the second residual is zero: both discrepancy vectors
    have the entry 0 and [nci] returns a value that is not finite. *)
Lemma C9_witness_scenario :
  [/\ true_discrepancies rat_numpy scenario_config scenario_solution
        scenario_reference = Return [:: Fin 1; Fin 0; Fin 1],
      baseline_discrepancies rat_numpy scenario_config scenario_solution
        scenario_reference = Return [:: Fin (3 / 7); Fin 0; Fin (12 / 7)],
      has (@np_nonpositive rat)
        ([:: Fin 1; Fin 0; Fin 1] ++ [:: Fin (3 / 7); Fin 0; Fin (12 / 7)])
    & exists2 v,
        (nci rat_numpy scenario_config scenario_solution
           scenario_reference).1 = Return v
        & ~~ is_finite v].
Proof.
split; [exact: scenario_true_discrepancies
       | exact: scenario_baseline_discrepancies | by [] |].
exact: (C9_nci_not_finite scenario_true_discrepancies
          scenario_baseline_discrepancies isT).
Defined.

End Instances.

(** * Further properties of the module *)

(** ** What the calls leave in the caller's covariance arrays *)

Section Frame.

Variable F : realFieldType.
Variable np : numpy F.
Variable cfg : config F.

Lemma add_damping_eq (d : nat) (a : F) (C : 'M[F]_d) :
  (C + a *: 1%:M == C) = (a == 0) || (d == 0%N).
Proof.
rewrite -subr_eq0 addrC addKr; case: d C => [|d] C.
  by rewrite orbT; apply/eqP/matrixP => [[]].
rewrite orbF; apply/eqP/eqP => [/matrixP/(_ 0 0)|->]; last by rewrite scale0r.
by rewrite !mxE eqxx mulr1.
Qed.


(** X1: The caller's covariance is left as it was exactly when symmetrize is
    enabled, or damping is not strictly positive, or the dimension is 0. *)
Theorem X1_caller_array_unchanged_iff (d : nat) (r : 'rV[F]_d) (C : 'M[F]_d) :
  (_compute_normalized_discrepancy np cfg r C).2 = C
  <-> [|| symmetrize cfg, damping cfg <= 0 | d == 0%N].
Proof.
rewrite discrepancy_array leNgt.
case: (symmetrize cfg) => /=; first by [].
case: ltP => [gt0|_] /=; last by [].
by split=> [/eqP|nd]; [|apply/eqP]; rewrite add_damping_eq gt_eqF.
Qed.

Lemma size_discrepancies_array (d : nat) (rs : seq 'rV[F]_d)
    (Cs : seq 'M[F]_d) :
  size (_compute_normalized_discrepancies np cfg rs Cs).2 = size Cs.
Proof.
elim: rs Cs => [|r rs IH] [|C Cs] //=.
case: (_compute_normalized_discrepancy np cfg r C) => [[x|e] C'] //=.
by have := IH Cs; case: (_compute_normalized_discrepancies _ _ _ _) => ? ? /= ->.
Qed.






End Frame.

(** ** Calling twice, misaligned sequences, the empty batch *)

Section Composition.

Variable F : realFieldType.
Variable np : numpy F.

Lemma zip_map_r (T U V : Type) (f : U -> V) (s : seq T) (t : seq U) :
  zip s (map f t) = [seq (q.1, f q.2) | q <- zip s t].
Proof. by elim: s t => [|x s IH] [|y t] //=; rewrite IH. Qed.

Lemma damped_twice (s : string) (a : F) (d : nat) (r : 'rV[F]_d)
    (C : 'M[F]_d) :
  0 < a ->
  normalized_discrepancy np (Config false a s) r
    (after_call (Config false a s) C)
  = normalized_discrepancy np (Config false (a + a) s) r C.
Proof.
move=> gt0; rewrite /normalized_discrepancy /regularized /damping_step.
by rewrite /symmetrize_step /after_call /= gt0 addr_gt0 // scalerDl addrA.
Qed.

(** X5: With symmetrize disabled and damping positive, a second call of
    [anees] on the batch the first call has written computes what one call
    with twice the damping computes on the original batch. *)
Theorem X5_anees_second_call (s : string) (a : F) (N d : nat)
    (sol : Normal F N d) (ref : N.-tuple 'rV[F]_d) :
  0 < a ->
  (anees np (Config false a s)
     (with_cov sol
        [tuple of map (@after_call F (Config false a s) d) (cov sol)])
     ref).1
  = (anees np (Config false (a + a) s) sol ref).1.
Proof.
move=> gt0; rewrite !anees_value !discrepancies_spec /discrepancy_vector.
rewrite -[centered (with_cov _ _) ref]/(centered sol ref).
rewrite -[tval (cov (with_cov _ _))]/(map _ (cov sol)) zip_map_r -map_comp.
by congr (_ <- collect _ ;; _); apply: eq_map => p /=; rewrite damped_twice.
Qed.

Lemma zip_take (T U : Type) (s : seq T) (t : seq U) :
  zip s t = zip (take (minn (size s) (size t)) s)
                (take (minn (size s) (size t)) t).
Proof.
elim: s t => [|x s IH] [|y t] //=.
by rewrite minnSS /= -IH.
Qed.

(** X6: A shorter argument silently cuts the batch: the result is that of the
    common prefix of the two sequences, it has as many entries as the
    shorter one, and the covariances beyond are not touched. *)
Theorem X6_discrepancies_zip_truncates (cfg : config F) (d : nat)
    (rs : seq 'rV[F]_d) (Cs : seq 'M[F]_d) :
  let n := minn (size rs) (size Cs) in
  [/\ (_compute_normalized_discrepancies np cfg rs Cs).1
      = (_compute_normalized_discrepancies np cfg (take n rs) (take n Cs)).1,
      drop n (_compute_normalized_discrepancies np cfg rs Cs).2 = drop n Cs
    & forall ds, (_compute_normalized_discrepancies np cfg rs Cs).1
                 = Return ds -> size ds = n].
Proof.
split=> [||ds]; first by rewrite !discrepancies_value -zip_take.
  elim: rs Cs => [|r rs IH] [|C Cs] //=; rewrite ?minnSS /=.
  case: (_compute_normalized_discrepancy np cfg r C) => [[x|e] C'] /=.
    by have := IH Cs; case: (_compute_normalized_discrepancies _ _ _ _).
  by [].
by rewrite discrepancies_value => /size_collect; rewrite size_map size_zip.
Qed.

(** X7: On the empty batch [anees] and [nci] return NaN, whatever the
    configuration: no point is evaluated, so not even an unrecognized
    strategy raises. *)
Theorem X7_empty_batch_nan (cfg : config F) (d : nat) (sol : Normal F 0 d)
    (ref : 0.-tuple 'rV[F]_d) :
  (anees np cfg sol ref).1 = Return NaN
  /\ (nci np cfg sol ref).1 = Return NaN.
Proof.
have E0 : centered sol ref = [::] by apply: size0nil; rewrite size_centered.
by rewrite anees_value nci_value E0 (tuple0 (cov sol)).
Qed.

End Composition.

(** ** What the results depend on *)

Section Dependence.

Variable F : realFieldType.
Variable np : numpy F.
Variable cfg : config F.

Lemma centered_nth (N d : nat) (sol : Normal F N d)
    (ref : N.-tuple 'rV[F]_d) (i : 'I_N) :
  nth 0 (centered sol ref) i = tnth (mean sol) i - tnth ref i.
Proof.
rewrite /centered (nth_map (0, 0)) ?size_zip ?size_tuple ?minnn //.
by rewrite nth_zip ?size_tuple //= !(tnth_nth 0).
Qed.

(** X8: [anees] and [nci] see the means and the reference only through the
    residuals: two inputs with the same covariances and, point by point,
    the same difference mean - reference give the same results and leave
    the same arrays. *)
Theorem X8_results_depend_on_residuals (N d : nat) (sol sol' : Normal F N d)
    (ref ref' : N.-tuple 'rV[F]_d) :
  cov sol = cov sol' ->
  (forall i, tnth (mean sol) i - tnth ref i
             = tnth (mean sol') i - tnth ref' i) ->
  anees np cfg sol ref = anees np cfg sol' ref'
  /\ nci np cfg sol ref = nci np cfg sol' ref'.
Proof.
move=> Ecov Eres; have Ec : centered sol ref = centered sol' ref'.
  apply: (@eq_from_nth _ 0); rewrite !size_centered // => i ltiN.
  by rewrite (centered_nth sol ref (Ordinal ltiN))
             (centered_nth sol' ref' (Ordinal ltiN)).
by rewrite /anees /nci Ec Ecov.
Qed.

Lemma dot0r_any (d : nat) (x : 'rV[F]_d) : dot (0 : 'rV[F]_d) x = 0.
Proof. by rewrite /dot mul0mx mxE. Qed.

Lemma zero_residual_spec (d : nat) (C : 'M[F]_d) (x : F) :
  normalized_discrepancy np cfg 0 C = Return x -> x = 0.
Proof.
rewrite /normalized_discrepancy; case: (inversion_of _) => [[]|] //=.
- by case: (linalg_inv _ _) => [D|] //= [<-]; rewrite dot0l.
- by case=> <-; rewrite dot0l.
- by case: (linalg_solve _ _ _) => [y|] //= [<-]; rewrite dot0r_any.
- by case: (cho_factor _ _) => [c|] //= [<-]; rewrite dot0r_any.
Qed.

(** X9: A zero residual has discrepancy 0 under every strategy, whatever the
    covariance: the call returns 0 or raises. *)
Theorem X9_zero_residual_discrepancy (d : nat) (C : 'M[F]_d) (x : F) :
  (_compute_normalized_discrepancy np cfg 0 C).1 = Return x -> x = 0.
Proof. by rewrite discrepancy_value; apply: zero_residual_spec. Qed.

Lemma collect_nth (T : Type) (x0 : T) (xs : seq (outcome T)) (vs : seq T)
    (i : nat) :
  collect xs = Return vs -> (i < size xs)%N ->
  nth (Raise LinAlgError) xs i = Return (nth x0 vs i).
Proof.
elim: xs vs i => [|[x|e] xs IH] vs i //=.
case Er: (collect xs) => [ws|] //= [<-]; case: i => [|i] //= lti.
exact: IH.
Qed.

(** X10: When the mean equals the reference at some point, [nci] never returns
    a finite number: it raises, or returns an infinity or NaN. *)
Theorem X10_nci_zero_residual (N d : nat) (sol : Normal F N d)
    (ref : N.-tuple 'rV[F]_d) (i : 'I_N) (x : F) :
  tnth (mean sol) i = tnth ref i ->
  (nci np cfg sol ref).1 <> Return (Fin x).
Proof.
move=> Ei; rewrite nci_refines /nci_spec /true_discrepancies.
rewrite /discrepancy_vector -centered_residuals.
case Eds: (collect _) => [ds|e]; rewrite /bind //.
case: (baseline_discrepancies _ _ _ _) => [B|e] // Efin.
suff nf : ~~ is_finite (np_mean [seq np_log10_with (log10 np) i
                                | i <- [seq Fin i | i <- ds]]).
  have nf' := np_mul_ten_not_finite
    (np_sub_not_finite_l (np_mean (map (np_log10_with (log10 np)) B)) nf).
  have := congr1 (fun o => if o is Return v then is_finite v else false) Efin.
  by move: nf' => /= /negbTE ->.
apply: mean_log_not_finite; rewrite has_map; apply/hasP.
have szds : size ds = N.
  by rewrite (size_collect Eds) size_map size_zip size_centered size_tuple minnn.
exists (nth 0 ds i); first by rewrite mem_nth ?szds.
have lti : (i < size [seq normalized_discrepancy np cfg p.1 p.2
                     | p <- zip (centered sol ref) (cov sol)])%N.
  by rewrite size_map size_zip size_centered size_tuple minnn.
have := collect_nth 0 Eds lti.
rewrite (nth_map (0, 0)) ?size_zip ?size_centered ?size_tuple ?minnn //.
rewrite nth_zip ?size_centered ?size_tuple //= centered_nth Ei subrr.
by move/zero_residual_spec => /= ->.
Qed.

Lemma symmetric_part_id (d : nat) (C : 'M[F]_d) :
  C^T = C -> 2%:R^-1 *: (C + C^T) = C.
Proof.
by move=> ->; rewrite -mulr2n -scaler_nat scalerA mulVf ?scale1r // pnatr_eq0.
Qed.

End Dependence.

Section Symmetrize.

Variable F : realFieldType.
Variable np : numpy F.

(** X11: On a symmetric covariance, enabling symmetrize changes nothing in the
    result. *)
Theorem X11_symmetrize_symmetric (a : F) (s : string) (d : nat) (r : 'rV[F]_d)
    (C : 'M[F]_d) :
  C^T = C ->
  (_compute_normalized_discrepancy np (Config true a s) r C).1
  = (_compute_normalized_discrepancy np (Config false a s) r C).1.
Proof.
move=> symC; rewrite !discrepancy_value /normalized_discrepancy /regularized.
by rewrite /symmetrize_step /= symmetric_part_id.
Qed.

End Symmetrize.

(** ** Positive definite, semidefinite and singular covariances *)

Section Definiteness.

Variable F : realFieldType.
Variable np : numpy F.
Variable cfg : config F.

Lemma lower_sym_id (d : nat) (C : 'M[F]_d) : C^T = C -> lower_sym C = C.
Proof.
move=> symC; apply/matrixP => i j; rewrite mxE; case: leqP => // _.
by rewrite -[in RHS]symC mxE.
Qed.

Lemma dot_trmx (d : nat) (x : 'rV[F]_d) (C : 'M[F]_d) :
  dot (x *m C^T) x = dot (x *m C) x.
Proof.
rewrite /dot.
have -> : x *m C^T *m x^T = (x *m C *m x^T)^T by rewrite !trmx_mul trmxK mulmxA.
by rewrite mxE.
Qed.

Lemma dotDl (d : nat) (u v w : 'rV[F]_d) : dot (u + v) w = dot u w + dot v w.
Proof. by rewrite /dot mulmxDl mxE. Qed.

Lemma regularized_sym (d : nat) (C : 'M[F]_d) :
  symmetrize cfg || (C^T == C) -> (regularized cfg C)^T = regularized cfg C.
Proof.
move=> ok; have symS : (symmetrize_step cfg C)^T = symmetrize_step cfg C.
  rewrite /symmetrize_step; case: (symmetrize cfg) ok => /= [_|/eqP //].
  by rewrite linearZ /= linearD /= trmxK addrC.
rewrite /regularized /damping_step; case: ifP => // _.
by rewrite linearD /= linearZ /= trmx1 symS.
Qed.

Lemma regularized_posdef (d : nat) (C : 'M[F]_d) :
  psd C -> 0 < damping cfg -> posdef (regularized cfg C).
Proof.
move=> psdC gt0 x nz; rewrite /regularized /damping_step gt0.
rewrite mulmxDr dotDl -scalemxAr mulmx1 dotZl.
apply: ltr_wpDl; last by rewrite pmulr_rgt0 // dot_self_gt0.
rewrite /symmetrize_step; case: (symmetrize cfg) => //.
rewrite -scalemxAr dotZl mulmxDr dotDl dot_trmx -mulr2n.
by rewrite mulr_ge0 ?invr_ge0 ?ler0n // mulrn_wge0.
Qed.

Lemma spd_value (d : nat) (r : 'rV[F]_d) (C : 'M[F]_d) :
  (regularized cfg C)^T = regularized cfg C ->
  posdef (regularized cfg C) -> recognized (strategy cfg) ->
  (_compute_normalized_discrepancy np cfg r C).1
  = Return (dot (r *m invmx (regularized cfg C)) r).
Proof.
move=> symC pdC ok; have uC := posdef_unit pdC.
rewrite discrepancy_value /normalized_discrepancy.
have /inversion_of_recognized := ok.
case: (inversion_of _) => [[] _|] //.
- exact: inv_step_unit.
- exact: pinv_step_unit.
- exact: solve_step_unit.
- by rewrite cholesky_step_posdef lower_sym_id.
Qed.

(** X12: On a covariance that is symmetric and positive definite after the
    regularization, the four strategies return the same value, the form
    [r C^-1 r]; it is never negative, and it is 0 for the zero residual
    only. *)
Theorem X12_spd_strategies_agree (d : nat) (r : 'rV[F]_d) (C : 'M[F]_d) :
  (regularized cfg C)^T = regularized cfg C ->
  posdef (regularized cfg C) -> recognized (strategy cfg) ->
  [/\ (_compute_normalized_discrepancy np cfg r C).1
      = Return (dot (r *m invmx (regularized cfg C)) r),
      0 <= dot (r *m invmx (regularized cfg C)) r
    & dot (r *m invmx (regularized cfg C)) r = 0 <-> r = 0].
Proof.
move=> symC pdC ok; split; first exact: spd_value.
  exact: posdef_form_ge0.
split=> [q0|->]; last by rewrite dot0l.
by apply/eqP; apply: contra_eqT q0 => nz; rewrite gt_eqF // posdef_form_gt0.
Qed.

(** X13: A positive damping makes every positive semidefinite covariance usable
    (a singular one too), when symmetrize is enabled or the covariance is
    symmetric: the four strategies return a value, and it is not
    negative. *)
Theorem X13_damping_rescues (d : nat) (r : 'rV[F]_d) (C : 'M[F]_d) :
  psd C -> symmetrize cfg || (C^T == C) -> 0 < damping cfg ->
  recognized (strategy cfg) ->
  exists2 q, (_compute_normalized_discrepancy np cfg r C).1 = Return q
           & 0 <= q.
Proof.
move=> psdC sym gt0 ok; have pdC := regularized_posdef psdC gt0.
exists (dot (r *m invmx (regularized cfg C)) r); last exact: posdef_form_ge0.
by apply: spd_value => //; apply: regularized_sym.
Qed.

(** X14: With strategy 'inv' or 'solve' the call raises the linear-algebra
    error exactly when the regularized covariance is singular. *)
Theorem X14_singular_raises (d : nat) (r : 'rV[F]_d) (C : 'M[F]_d) :
  strategy cfg = "inv"%string \/ strategy cfg = "solve"%string ->
  (_compute_normalized_discrepancy np cfg r C).1 = Raise LinAlgError
  <-> regularized cfg C \notin unitmx.
Proof.
move=> ok; rewrite discrepancy_value /normalized_discrepancy.
have [uC|sC] := boolP (regularized cfg C \in unitmx).
  by case: ok => -> /=; rewrite ?inv_unit ?solve_unit.
by case: ok => -> /=; rewrite ?inv_singular ?solve_singular.
Qed.

Lemma regularized_zero (d : nat) :
  damping cfg <= 0 -> regularized cfg (0 : 'M[F]_d) = 0.
Proof.
rewrite leNgt /regularized /damping_step /symmetrize_step => /negbTE ->.
by case: (symmetrize cfg); rewrite // trmx0 addr0 scaler0.
Qed.

Lemma pinv_zero (d : nat) : linalg_pinv np (0 : 'M[F]_d) = 0.
Proof. by have [_ <- _ _] := pinv_penrose np (0 : 'M[F]_d); rewrite mulmx0 mul0mx. Qed.

Lemma zero_not_posdef (d : nat) : ~ posdef (0 : 'M[F]_d.+1).
Proof.
have nz : (const_mx 1 : 'rV[F]_d.+1) != 0.
  by apply/eqP => /matrixP/(_ 0 0); rewrite !mxE; apply/eqP; rewrite oner_eq0.
by move=> /(_ _ nz); rewrite mulmx0 dot0r_any ltxx.
Qed.

(** X15: On the zero covariance (a point known exactly) without damping, in a
    dimension d > 0: 'pinv' returns 0, and 'inv', 'solve' and 'cholesky'
    raise the linear-algebra error. *)
Theorem X15_zero_covariance (d : nat) (r : 'rV[F]_d.+1) :
  damping cfg <= 0 ->
  (strategy cfg = "pinv"%string ->
     (_compute_normalized_discrepancy np cfg r 0).1 = Return 0)
  /\ ([\/ strategy cfg = "inv"%string, strategy cfg = "solve"%string
        | strategy cfg = "cholesky"%string] ->
      (_compute_normalized_discrepancy np cfg r 0).1 = Raise LinAlgError).
Proof.
move=> le0; rewrite discrepancy_value /normalized_discrepancy.
rewrite regularized_zero //; split=> [->|[] ->] /=.
- by rewrite pinv_zero mulmx0 dot0r_any.
- by rewrite inv_singular // zero_mx_singular.
- by rewrite solve_singular // zero_mx_singular.
- case Ec: (cho_factor np 0) => [c|] //=.
  have pd : posdef (lower_sym (0 : 'M[F]_d.+1)).
    by apply: (@cho_positive _ np); rewrite Ec.
  by move: pd; rewrite lower_sym_id ?trmx0 // => /zero_not_posdef.
Qed.

End Definiteness.

(** ** ANEES under changes of the covariances and of the units *)

Section AneesAlgebra.

Variable F : realFieldType.
Variable np : numpy F.

Lemma anees_unit (s : string) (N d : nat) (sol : Normal F N d)
    (ref : N.-tuple 'rV[F]_d) :
  s = "inv"%string \/ s = "solve"%string ->
  all (fun C => C \in unitmx) (cov sol) -> (0 < N)%N ->
  (anees np (Config false 0 s) sol ref).1
  = Return (Fin ((\sum_(q <- forms (centered sol ref) (cov sol)) q) / N%:R)).
Proof.
move=> ok uCs lt0N.
have szf : size (forms (centered sol ref) (cov sol)) = N.
  by rewrite /forms size_map size_zip size_centered size_tuple minnn.
by rewrite anees_value discrepancies_unit //= np_mean_fin szf.
Qed.

Lemma anees_inflate (s : string) (k : F) (N d : nat)
    (sol : Normal F N d) (ref : N.-tuple 'rV[F]_d) :
  s = "inv"%string \/ s = "solve"%string -> k != 0 -> (0 < N)%N ->
  all (fun C => C \in unitmx) (cov sol) ->
  (anees np (Config false 0 s) (inflate k sol) ref).1
  = Return (Fin ((\sum_(q <- forms (centered sol ref) (cov sol)) q)
                 / N%:R / k)).
Proof.
move=> ok nzk lt0N uCs.
have uCs' : all (fun C => C \in unitmx) (cov (inflate k sol)).
  rewrite -[tval (cov (inflate k sol))]/[seq k *: C | C <- cov sol] all_map.
  by apply: sub_all uCs => C uC /=; rewrite unitmxZ ?unitfE.
rewrite (anees_unit _ ok uCs' lt0N).
rewrite -[centered (inflate k sol) ref]/(centered sol ref).
rewrite -[tval (cov (inflate k sol))]/[seq k *: C | C <- cov sol].
rewrite forms_inflate // big_map -mulr_sumr.
by congr (Return (Fin _)); rewrite -mulrA mulrC.
Qed.

(** X16: With strategy 'inv' or 'solve', symmetrize disabled and damping 0, on
    a non-empty batch of invertible covariances: multiplying every
    covariance by [k <> 0] divides the value of [anees] by [k]. *)
Theorem X16_anees_covariance_scaling (s : string) (k : F) (N d : nat)
    (sol : Normal F N d) (ref : N.-tuple 'rV[F]_d) :
  s = "inv"%string \/ s = "solve"%string -> k != 0 -> (0 < N)%N ->
  all (fun C => C \in unitmx) (cov sol) ->
  exists2 v,
    (anees np (Config false 0 s) sol ref).1 = Return (Fin v)
    & (anees np (Config false 0 s) (inflate k sol) ref).1
      = Return (Fin (v / k)).
Proof.
move=> ok nzk lt0N uCs.
exists ((\sum_(q <- forms (centered sol ref) (cov sol)) q) / N%:R).
  exact: anees_unit.
exact: anees_inflate.
Qed.

(** X17: Deflated covariances (overconfidence): for positive definite
    covariances and a non-zero residual, multiplying every covariance by
    0 < k < 1 makes the value of [anees] strictly larger. *)
Theorem X17_deflation_increases_anees (s : string) (k : F) (N d : nat)
    (sol : Normal F N d) (ref : N.-tuple 'rV[F]_d) :
  s = "inv"%string \/ s = "solve"%string -> 0 < k -> k < 1 ->
  (forall i, posdef (tnth (cov sol) i)) ->
  has (fun r => r != 0) (centered sol ref) ->
  exists2 v,
    (anees np (Config false 0 s) sol ref).1 = Return (Fin v)
    & (anees np (Config false 0 s) (inflate k sol) ref).1
      = Return (Fin (v / k))
      /\ v < v / k.
Proof.
move=> ok gt0 lt1 pd nz.
have pdC C : C \in cov sol -> posdef C by case/tnthP => i ->.
have uCs : all (fun C => C \in unitmx) (cov sol).
  by apply/allP => C /pdC; apply: posdef_unit.
have lt0N : (0 < N)%N.
  by rewrite -(size_centered sol ref); case: (centered sol ref) nz.
exists ((\sum_(q <- forms (centered sol ref) (cov sol)) q) / N%:R).
  exact: anees_unit.
split; first exact: anees_inflate (lt0r_neq0 gt0) lt0N uCs.
have gt0v : 0 < (\sum_(q <- forms (centered sol ref) (cov sol)) q) / N%:R.
  rewrite divr_gt0 ?ltr0n //.
  by apply: forms_sum_gt0 => //; rewrite size_centered size_tuple.
by rewrite ltr_pdivlMr // gtr_pMr.
Qed.

Lemma forms_eq0 (d : nat) (rs : seq 'rV[F]_d) (Cs : seq 'M[F]_d) :
  all (fun r => r == 0) rs -> \sum_(q <- forms rs Cs) q = 0.
Proof.
rewrite /forms; elim: rs Cs => [|r rs IH] [|C Cs] /=; rewrite ?big_nil //.
by case/andP=> /eqP -> /IH E; rewrite big_cons E dot0l addr0.
Qed.

(** X18: For positive definite covariances (strategy 'inv' or 'solve',
    symmetrize disabled, damping 0) the value of [anees] on a non-empty
    batch is a number, it is not negative, and it is 0 exactly when every
    residual is zero. *)
Theorem X18_anees_nonnegative (s : string) (N d : nat) (sol : Normal F N d)
    (ref : N.-tuple 'rV[F]_d) :
  s = "inv"%string \/ s = "solve"%string -> (0 < N)%N ->
  (forall i, posdef (tnth (cov sol) i)) ->
  exists v,
    [/\ (anees np (Config false 0 s) sol ref).1 = Return (Fin v),
        0 <= v
      & v = 0 <-> all (fun r => r == 0) (centered sol ref)].
Proof.
move=> ok lt0N pd.
have pdC C : C \in cov sol -> posdef C by case/tnthP => i ->.
have uCs : all (fun C => C \in unitmx) (cov sol).
  by apply/allP => C /pdC; apply: posdef_unit.
have gt0N : 0 < N%:R :> F by rewrite ltr0n.
exists ((\sum_(q <- forms (centered sol ref) (cov sol)) q) / N%:R).
split; first exact: anees_unit.
  by rewrite divr_ge0 ?ler0n //; apply: forms_sum_ge0.
split=> [v0|/forms_eq0 ->]; last by rewrite mul0r.
rewrite -[all _ _]negbK -has_predC; apply/negP => nz.
have : 0 < (\sum_(q <- forms (centered sol ref) (cov sol)) q) / N%:R.
  rewrite divr_gt0 //; apply: forms_sum_gt0 => //.
  by rewrite size_centered size_tuple.
by rewrite v0 ltxx.
Qed.

Lemma centered_rescale (c : F) (N d : nat) (sol : Normal F N d)
    (ref : N.-tuple 'rV[F]_d) :
  centered (rescale c sol) [tuple of [seq c *: y | y <- ref]]
  = [seq c *: r | r <- centered sol ref].
Proof.
rewrite /centered /=.
elim: (tval (mean sol)) (tval ref) => [|m ms IH] [|y ys] //=.
by rewrite IH scalerBr.
Qed.

Lemma forms_rescale (c : F) (d : nat) (rs : seq 'rV[F]_d)
    (Cs : seq 'M[F]_d) :
  c != 0 -> all (fun C => C \in unitmx) Cs ->
  forms [seq c *: r | r <- rs] [seq c ^+ 2 *: C | C <- Cs] = forms rs Cs.
Proof.
move=> nz; rewrite /forms.
elim: rs Cs => [|r rs IH] [|C Cs] //= /andP[uC uCs]; rewrite {}IH //.
congr (_ :: _); rewrite invmxZ ?unitmxZ ?unitfE ?expf_neq0 //.
rewrite -scalemxAr -scalemxAl dotZl dotZl dotC dotZl dotC.
by field.
Qed.

(** X19: A change of units leaves [anees] as it is: means and reference
    multiplied by [c <> 0] and covariances by [c ^+ 2] give the same value
    (strategy 'inv' or 'solve', symmetrize disabled, damping 0, invertible
    covariances). *)
Theorem X19_anees_unit_invariant (s : string) (c : F) (N d : nat)
    (sol : Normal F N d) (ref : N.-tuple 'rV[F]_d) :
  s = "inv"%string \/ s = "solve"%string -> c != 0 ->
  all (fun C => C \in unitmx) (cov sol) ->
  (anees np (Config false 0 s) (rescale c sol)
     [tuple of [seq c *: y | y <- ref]]).1
  = (anees np (Config false 0 s) sol ref).1.
Proof.
move=> ok nz uCs; rewrite !anees_value centered_rescale.
rewrite -[tval (cov (rescale c sol))]/[seq c ^+ 2 *: C | C <- cov sol].
have uCs' : all (fun C => C \in unitmx) [seq c ^+ 2 *: C | C <- cov sol].
  rewrite all_map; apply: sub_all uCs => C uC /=.
  by rewrite unitmxZ ?unitfE ?expf_neq0.
by rewrite (discrepancies_unit _ _ ok uCs') (discrepancies_unit _ _ ok uCs)
           forms_rescale.
Qed.

End AneesAlgebra.

(** ** NCI and the sample covariance *)

Section NciAlgebra.

Variable F : realFieldType.
Variable np : numpy F.

Lemma sample_covariance_sym (d : nat) (rs : seq 'rV[F]_d) :
  (sample_covariance rs)^T = sample_covariance rs.
Proof.
rewrite /sample_covariance linearZ /= raddf_sum /=; congr (_ *: _).
by apply: eq_bigr => r _; rewrite trmx_mul trmxK.
Qed.

Lemma dot_sum (d : nat) (I : Type) (s : seq I) (f : I -> 'rV[F]_d)
    (x : 'rV[F]_d) :
  dot (\sum_(i <- s) f i) x = \sum_(i <- s) dot (f i) x.
Proof.
elim: s => [|i s IH]; first by rewrite !big_nil dot0r_any.
by rewrite !big_cons dotDl IH.
Qed.

Lemma sample_covariance_psd (d : nat) (rs : seq 'rV[F]_d) :
  psd (sample_covariance rs).
Proof.
move=> x; rewrite /sample_covariance -scalemxAr dotZl.
apply: mulr_ge0; first by rewrite invr_ge0 ler0n.
rewrite mulmx_sumr dot_sum; apply: sumr_ge0 => r _.
rewrite /dot mulmxA -mulmxA -[_ *m x^T]trmxK trmx_mul trmxK.
by rewrite -/(dot _ _) dot_self_ge0.
Qed.

(** X20: The matrix [np.cov] gives [nci] for its baseline is symmetric and
    positive semidefinite. *)
Theorem X20_np_cov_symmetric_psd (d : nat) (rs : seq 'rV[F]_d) (c : 'M[F]_d) :
  np_cov rs = Some c -> c^T = c /\ psd c.
Proof.
rewrite /np_cov leqn0 subn_eq0; case: leqP => // lt1N.
have := np_cov_sample lt1N; rewrite /np_cov leqn0 subn_eq0 leqNgt lt1N /=.
move=> -> [<-]; split; first exact: sample_covariance_sym.
exact: sample_covariance_psd.
Qed.

Lemma zip_nseq (T U : Type) (s : seq T) (y : U) :
  zip s (nseq (size s) y) = [seq (x, y) | x <- s].
Proof. by elim: s => [|x s IH] //=; rewrite IH. Qed.

Lemma symmetrize_symmetric_spec (a : F) (s : string) (d : nat)
    (r : 'rV[F]_d) (C : 'M[F]_d) :
  C^T = C ->
  normalized_discrepancy np (Config true a s) r C
  = normalized_discrepancy np (Config false a s) r C.
Proof.
move=> symC; rewrite /normalized_discrepancy /regularized.
by rewrite /symmetrize_step /= symmetric_part_id.
Qed.

Lemma np_cov_some (d : nat) (rs : seq 'rV[F]_d) (c : 'M[F]_d) :
  np_cov rs = Some c -> (1 < size rs)%N /\ c = sample_covariance rs.
Proof.
case: (ltnP 1 (size rs)) => [lt1N|/np_cov_nan -> //].
by rewrite np_cov_sample // => -[<-].
Qed.

(** X21: The second pass of [nci], over the copies of the sample covariance
    [np.cov] returned, does not depend on symmetrize: that matrix is
    symmetric already. *)
Theorem X21_baseline_ignores_symmetrize (a : F) (s : string) (d : nat)
    (rs : seq 'rV[F]_d) (c : 'M[F]_d) :
  np_cov rs = Some c ->
  (_compute_normalized_discrepancies np (Config true a s) rs
     (nseq (size rs) c)).1
  = (_compute_normalized_discrepancies np (Config false a s) rs
       (nseq (size rs) c)).1.
Proof.
case/np_cov_some=> _ ->; rewrite !discrepancies_spec /discrepancy_vector.
rewrite !zip_nseq -!map_comp; congr collect; apply: eq_map => r /=.
by rewrite symmetrize_symmetric_spec // sample_covariance_sym.
Qed.

Lemma log_positive (lg : F -> F) (ds : seq F) :
  all (fun x => 0 < x) ds ->
  map (np_log10_with lg) (map (@Fin F) ds) = map (@Fin F) (map lg ds).
Proof. by elim: ds => [|x ds IH] //= /andP[-> /IH ->]. Qed.

(** X22: Perfect calibration relative to the empirical spread: when every
    reported covariance is the matrix [np.cov] returns for the residuals
    and the discrepancies are positive, [nci] returns 0. *)
Theorem X22_nci_zero_at_sample_covariance (cfg : config F) (N d : nat)
    (sol : Normal F N d) (ref : N.-tuple 'rV[F]_d) (c : 'M[F]_d)
    (ds : seq F) :
  np_cov (centered sol ref) = Some c ->
  tval (cov sol) = nseq N c ->
  (_compute_normalized_discrepancies np cfg (centered sol ref) (cov sol)).1
  = Return ds ->
  all (fun x => 0 < x) ds ->
  (nci np cfg sol ref).1 = Return (Fin 0).
Proof.
move=> Ec Ecov Eds pos; have lt0N : (0 < N)%N.
  by case/np_cov_some: Ec; rewrite size_centered => /ltnW.
rewrite nci_value Ec size_centered -Ecov Eds /bind log_positive //.
have szds : size (map (log10 np) ds) = N.
  rewrite size_map; move: Eds; rewrite discrepancies_value.
  move/size_collect=> ->.
  by rewrite size_map size_zip size_centered size_tuple minnn.
by rewrite np_mean_fin ?szds //= subrr mulr0.
Qed.


End NciAlgebra.

(** ** Concrete instances of the further properties *)

Section MoreInstances.

#[local] Opaque _compute_normalized_discrepancy.




Lemma X5_witness_anees_second_call :
  (anees rat_numpy (Config false 1 "solve")
     (with_cov scenario_solution
        [tuple of map (@after_call rat (Config false 1 "solve") 1)
                      (cov scenario_solution)])
     scenario_reference).1
  = (anees rat_numpy (Config false (1 + 1) "solve") scenario_solution
       scenario_reference).1.
Proof. by apply: X5_anees_second_call. Defined.

Lemma shifted_residuals (i : 'I_3) :
  tnth (mean scenario_solution) i - tnth scenario_reference i
  = tnth (mean shifted_solution) i - tnth shifted_reference i.
Proof.
rewrite !(tnth_nth 0).
by case: i => [[|[|[|i]]] lti] //=; rewrite -!raddfB /=; congr (_%:M);
   apply/eqP.
Qed.

Lemma X8_witness_results_depend_on_residuals :
  anees rat_numpy scenario_config scenario_solution scenario_reference
  = anees rat_numpy scenario_config shifted_solution shifted_reference
  /\ nci rat_numpy scenario_config scenario_solution scenario_reference
     = nci rat_numpy scenario_config shifted_solution shifted_reference.
Proof. by apply: X8_results_depend_on_residuals shifted_residuals. Defined.

Lemma zero_residual_returns :
  (_compute_normalized_discrepancy rat_numpy scenario_config
     (0 : 'rV[rat]_1) 1%:M).1 = Return 0.
Proof.
rewrite /scenario_config (@strategy_value _ _ _ _ _ Solve) //.
by rewrite regularized_plain solve_step_unit ?scalar_mx_unit // dot0l.
Qed.

Lemma X9_witness_zero_residual_discrepancy :
  (_compute_normalized_discrepancy rat_numpy scenario_config
     (0 : 'rV[rat]_1) 1%:M).1 = Return 0
  /\ (0 : rat) = 0.
Proof.
split; first exact: zero_residual_returns.
exact: X9_zero_residual_discrepancy zero_residual_returns.
Defined.

Lemma X10_witness_nci_zero_residual :
  (nci rat_numpy scenario_config scenario_solution scenario_reference).1
  <> Return (Fin 0).
Proof.
by apply: (@X10_nci_zero_residual _ _ _ _ _ _ _ (inord 1));
   rewrite !(tnth_nth 0) inordK.
Defined.

Lemma X11_witness_symmetrize_symmetric :
  (_compute_normalized_discrepancy rat_numpy (Config true 0 "inv")
     (1%:M : 'rV[rat]_1) 1%:M).1
  = (_compute_normalized_discrepancy rat_numpy (Config false 0 "inv")
       (1%:M : 'rV[rat]_1) 1%:M).1.
Proof. by apply: X11_symmetrize_symmetric; rewrite trmx1. Defined.

Lemma four_regularized :
  regularized scenario_config (4%:M : 'M[rat]_1) = 4%:M.
Proof. exact: regularized_plain. Qed.

Lemma X12_witness_spd_strategies_agree :
  [/\ (_compute_normalized_discrepancy rat_numpy scenario_config
         (2%:M : 'rV[rat]_1) 4%:M).1
      = Return (dot ((2%:M : 'rV[rat]_1)
                     *m invmx (regularized scenario_config 4%:M)) 2%:M),
      0 <= dot ((2%:M : 'rV[rat]_1)
                *m invmx (regularized scenario_config 4%:M)) 2%:M
    & dot ((2%:M : 'rV[rat]_1)
           *m invmx (regularized scenario_config 4%:M)) 2%:M = 0
      <-> (2%:M : 'rV[rat]_1) = 0].
Proof.
apply: X12_spd_strategies_agree; rewrite ?four_regularized ?tr_scalar_mx //.
  exact: scalar_mx_posdef.
by constructor 3.
Defined.

Lemma zero_psd : psd (0 : 'M[rat]_1).
Proof. by move=> x; rewrite mulmx0 dot0r_any. Qed.

Lemma X13_witness_damping_rescues :
  exists2 q,
    (_compute_normalized_discrepancy rat_numpy (Config false 1 "cholesky")
       (1%:M : 'rV[rat]_1) 0).1 = Return q
    & 0 <= q.
Proof.
apply: X13_damping_rescues => //=; first exact: zero_psd.
  by rewrite trmx0.
by constructor 4.
Defined.

Lemma X14_witness_singular_raises :
  (_compute_normalized_discrepancy rat_numpy scenario_config
     (1%:M : 'rV[rat]_1) 0).1 = Raise LinAlgError
  <-> regularized scenario_config (0 : 'M[rat]_1) \notin unitmx.
Proof. by apply: X14_singular_raises; right. Defined.

Lemma X15_witness_zero_covariance :
  (_compute_normalized_discrepancy rat_numpy (Config false 0 "pinv")
     (1%:M : 'rV[rat]_1) 0).1 = Return 0
  /\ (_compute_normalized_discrepancy rat_numpy (Config false 0 "cholesky")
        (1%:M : 'rV[rat]_1) 0).1 = Raise LinAlgError.
Proof.
split.
  have [pinv0 _] :=
    @X15_zero_covariance rat rat_numpy (Config false 0 "pinv") 0 1%:M isT.
  exact: pinv0.
have [_ raises] :=
  @X15_zero_covariance rat rat_numpy (Config false 0 "cholesky") 0 1%:M isT.
by apply: raises; constructor 3.
Defined.

Lemma X16_witness_anees_covariance_scaling :
  exists2 v,
    (anees rat_numpy (Config false 0 "inv") scenario_solution
       scenario_reference).1 = Return (Fin v)
    & (anees rat_numpy (Config false 0 "inv") (inflate (- 3) scenario_solution)
         scenario_reference).1 = Return (Fin (v / - 3)).
Proof.
apply: X16_anees_covariance_scaling => //; first by left.
exact: scenario_cov_unit.
Defined.

Lemma X17_witness_deflation_increases_anees :
  exists2 v,
    (anees rat_numpy (Config false 0 "solve") scenario_solution
       scenario_reference).1 = Return (Fin v)
    & (anees rat_numpy (Config false 0 "solve")
         (inflate (1 / 2) scenario_solution) scenario_reference).1
      = Return (Fin (v / (1 / 2)))
      /\ v < v / (1 / 2).
Proof.
apply: X17_deflation_increases_anees => //; first by right.
  exact: scenario_posdef.
exact: scenario_nonzero.
Defined.

Lemma X18_witness_anees_nonnegative :
  exists v,
    [/\ (anees rat_numpy (Config false 0 "solve") scenario_solution
          scenario_reference).1 = Return (Fin v),
        0 <= v
      & v = 0 <-> all (fun r => r == 0)
                      (centered scenario_solution scenario_reference)].
Proof.
apply: X18_anees_nonnegative => //; first by right.
exact: scenario_posdef.
Defined.

Lemma X19_witness_anees_unit_invariant :
  (anees rat_numpy (Config false 0 "solve") (rescale 2 scenario_solution)
     [tuple of [seq 2 *: y | y <- scenario_reference]]).1
  = (anees rat_numpy (Config false 0 "solve") scenario_solution
       scenario_reference).1.
Proof.
apply: X19_anees_unit_invariant => //; first by right.
exact: scenario_cov_unit.
Defined.

Lemma scenario_np_cov :
  np_cov (centered scenario_solution scenario_reference)
  = Some ((7 / 3)%:M).
Proof.
by rewrite np_cov_sample ?size_centered // scenario_centered
           scalar_sample_covariance scenario_variance.
Qed.

Lemma X20_witness_np_cov_symmetric_psd :
  ((7 / 3)%:M : 'M[rat]_1)^T = (7 / 3)%:M /\ psd ((7 / 3)%:M : 'M[rat]_1).
Proof. exact: X20_np_cov_symmetric_psd scenario_np_cov. Defined.

Lemma calibrated_centered :
  centered calibrated_solution calibrated_reference
  = [seq (x%:M : 'rV[rat]_1) | x <- [:: 1; - 1]].
Proof.
by rewrite /centered /= -!raddfB /=; congr [:: _%:M; _%:M]; apply/eqP.
Qed.

Lemma calibrated_variance : variance [:: 1; - 1 : rat] = 2.
Proof. by rewrite /variance unlock /=; apply/eqP. Qed.

Lemma calibrated_np_cov :
  np_cov (centered calibrated_solution calibrated_reference) = Some 2%:M.
Proof.
by rewrite np_cov_sample ?size_centered // calibrated_centered
           scalar_sample_covariance calibrated_variance.
Qed.

Lemma calibrated_discrepancies :
  (_compute_normalized_discrepancies rat_numpy scenario_config
     (centered calibrated_solution calibrated_reference)
     (cov calibrated_solution)).1 = Return [:: 1 / 2; 1 / 2].
Proof.
have uS : all (fun C => C \in unitmx) (cov calibrated_solution).
  by rewrite /= !scalar_mx_unit.
rewrite calibrated_centered (discrepancies_unit _ _ (or_intror (erefl _)) uS).
rewrite /forms /= !scalar_mx_form.
by congr (Return [:: _; _]); apply/eqP.
Qed.

Lemma X21_witness_baseline_ignores_symmetrize :
  (_compute_normalized_discrepancies rat_numpy (Config true 0 "inv")
     (centered calibrated_solution calibrated_reference)
     (nseq (size (centered calibrated_solution calibrated_reference))
        2%:M)).1
  = (_compute_normalized_discrepancies rat_numpy (Config false 0 "inv")
       (centered calibrated_solution calibrated_reference)
       (nseq (size (centered calibrated_solution calibrated_reference))
          2%:M)).1.
Proof.
exact: (X21_baseline_ignores_symmetrize rat_numpy 0 "inv" calibrated_np_cov).
Defined.

Lemma X22_witness_nci_zero_at_sample_covariance :
  (nci rat_numpy scenario_config calibrated_solution calibrated_reference).1
  = Return (Fin 0).
Proof.
exact: (X22_nci_zero_at_sample_covariance calibrated_np_cov (erefl _)
          calibrated_discrepancies isT).
Defined.



End MoreInstances.
